(** * Pintos resource-management core: frame table with second-chance
      eviction (vm/frame.c) and namespace operations (filesys/filesys.c).

    The C functions are embedded as functions over explicit kernel state.
    Pointers to kernel objects are [option]s ([None] is the null pointer),
    undefined behaviour of the C code (dereferencing the list sentinel, a
    null or a freed object) is an explicit outcome. *)

From stdpp Require Import gmap strings list fin_maps.
From Stdlib Require Import ZArith Ascii.

Open Scope Z_scope.

(** Result of running a kernel routine: a value with the new state, C
    undefined behaviour, or an exhausted step budget (for the [while (true)]
    loop of the eviction scan). *)
Inductive outcome (A S : Type) : Type :=
| Done (a : A) (s : S)
| Undefined
| OutOfFuel.
Arguments Done {A S} a s.
Arguments Undefined {A S}.
Arguments OutOfFuel {A S}.

(* ===================================================================== *)
(** * Frame table and eviction (vm/frame.c) *)
(* ===================================================================== *)
Module Frame.

(** [struct frame]: owning page directory, physical address, user page. *)
Record frame : Type := Build_frame { pagedir : Z; addr : Z; upage : Z }.

#[global] Instance frame_eq_dec : EqDecision frame.
Proof. solve_decision. Defined.

(** A page-table entry as far as the frame table looks at it. *)
Record pte : Type := Build_pte
  { pte_present : bool; pte_accessed : bool; pte_dirty : bool }.

(** [struct page], the supplemental page-table record: the two fields that
    [frame_evict] writes. *)
Record page : Type := Build_page { valid : bool; swap_idx : Z }.

(** ** Collaborators *)

(** Modelled from the spec: the physical allocator of threads/palloc.c,
    [get_page(flags) → address|null] and [free_page(address)], taken as an
    interface; [palloc_allocated] is the set of pages currently handed
    out. *)
Class PhysAllocator (P : Type) : Type := Build_PhysAllocator
  { palloc_get_page : Z → P → option Z * P;
    palloc_free_page : Z → P → P;
    palloc_allocated : P → Z → Prop }.

(** The allocator never hands out a page that is currently allocated, and
    neither call disturbs the other pages. *)
Record PhysAllocatorSound (P : Type) `{PhysAllocator P} : Prop :=
  Build_PhysAllocatorSound
  { get_page_fresh : ∀ fl p a p',
      palloc_get_page fl p = (Some a, p') → ¬ palloc_allocated p a;
    get_page_marks : ∀ fl p a p',
      palloc_get_page fl p = (Some a, p') → palloc_allocated p' a;
    get_page_keeps : ∀ fl p r p' b,
      palloc_get_page fl p = (r, p') → palloc_allocated p b → palloc_allocated p' b;
    free_page_keeps : ∀ a p b,
      b ≠ a → palloc_allocated p b → palloc_allocated (palloc_free_page a p) b }.

(** Modelled from the spec: the flag that tags a request as user-owned,
    [PAL_USER] of [enum palloc_flags] (threads/palloc.h). *)
Definition PAL_USER : Z := 4.

(** Modelled from the spec: the page-table collaborator ([is_accessed],
    [clear_accessed], [is_dirty], [unmap]) of userprog/pagedir.c, over a
    map from (page directory, user page) to the entry. A missing entry
    reads as not accessed and not dirty, and writes to it do nothing. *)
Definition pagedir_is_accessed (pts : gmap (Z * Z) pte) (pd up : Z) : bool :=
  match pts !! (pd, up) with Some e => pte_accessed e | None => false end.

Definition pagedir_set_accessed (pts : gmap (Z * Z) pte) (pd up : Z) (b : bool)
  : gmap (Z * Z) pte :=
  alter (λ e, Build_pte (pte_present e) b (pte_dirty e)) (pd, up) pts.

Definition pagedir_is_dirty (pts : gmap (Z * Z) pte) (pd up : Z) : bool :=
  match pts !! (pd, up) with Some e => pte_dirty e | None => false end.

Definition pagedir_clear_page (pts : gmap (Z * Z) pte) (pd up : Z)
  : gmap (Z * Z) pte :=
  alter (λ e, Build_pte false (pte_accessed e) (pte_dirty e)) (pd, up) pts.

(** Modelled from the spec: the swap store's [write_out(physical_page) →
    slot_id] of vm/swap.c. The store is the list of pages written so far and
    the slot is the position of the page in it. *)
Definition swap_out (a : Z) (sw : list Z) : Z * list Z :=
  (Z.of_nat (length sw), sw ++ [a]).

(** Modelled from the spec: [page_find] of vm/page.c returns the metadata
    record of the user page ("the corresponding virtual page's metadata");
    [frame_evict] marks it invalid and records the swap slot in it. *)
Definition page_swapped (up idx : Z) (pgs : gmap Z page) : gmap Z page :=
  <[up := Build_page false idx]> pgs.

(** ** Kernel state seen by the frame table *)
Section FrameTable.
Context {P : Type} `{PhysAllocator P}.

Record vm : Type := Build_vm
  { frame_table : list frame;        (* static struct list frame_table *)
    ptes : gmap (Z * Z) pte;         (* the page directories *)
    pages : gmap Z page;             (* supplemental page table, by user page *)
    swap : list Z;                   (* swap store *)
    palloc : P;                      (* physical allocator *)
    cur_pagedir : Z }.               (* thread_current ()->pagedir *)

(** [frame_init]: [list_init (&frame_table)]. *)
Definition frame_init (s : vm) : vm :=
  Build_vm [] (ptes s) (pages s) (swap s) (palloc s) (cur_pagedir s).

(** The block of [frame_evict] that reclaims the victim [frame], which sits
    at position [e] of the list. *)
Definition evict_victim (flags : Z) (e : nat) (frame : frame) (s : vm)
  : option Z * vm :=
  let '(pgs, sw) :=
    if pagedir_is_dirty (ptes s) (pagedir frame) (upage frame) then
      let '(idx, sw') := swap_out (addr frame) (swap s) in
      (page_swapped (upage frame) idx (pages s), sw')
    else (pages s, swap s) in
  let tbl := delete e (frame_table s) in
  let pts := pagedir_clear_page (ptes s) (pagedir frame) (upage frame) in
  let pa := palloc_free_page (addr frame) (palloc s) in
  let '(r, pa') := palloc_get_page (Z.lor PAL_USER flags) pa in
  (r, Build_vm tbl pts pgs sw pa' (cur_pagedir s)).

(** The [while (true)] loop of [frame_evict]; [e] is the list position of
    the element under inspection. Reading the element of an empty list
    dereferences the list's tail sentinel. *)
Fixpoint evict_scan (fuel : nat) (flags : Z) (e : nat) (s : vm)
  : outcome (option Z) vm :=
  match fuel with
  | O => OutOfFuel
  | S fuel' =>
    match frame_table s !! e with
    | None => Undefined
    | Some frame =>
      if pagedir_is_accessed (ptes s) (pagedir frame) (upage frame) then
        let s1 := Build_vm (frame_table s)
                    (pagedir_set_accessed (ptes s) (pagedir frame) (upage frame) false)
                    (pages s) (swap s) (palloc s) (cur_pagedir s) in
        let e1 := S e in
        let e2 := if decide (e1 = length (frame_table s1)) then O else e1 in
        evict_scan fuel' flags e2 s1
      else
        let '(r, s') := evict_victim flags e frame s in Done r s'
    end
  end.

(** [frame_evict]: the scan starts at [list_begin (&frame_table)]. *)
Definition frame_evict (fuel : nat) (flags : Z) (s : vm) : outcome (option Z) vm :=
  evict_scan fuel flags O s.

(** [frame_alloc]. [malloc] of the record is taken to succeed. *)
Definition frame_alloc (fuel : nat) (up flags : Z) (s : vm)
  : outcome (option Z) vm :=
  let '(page0, pa) := palloc_get_page (Z.lor PAL_USER flags) (palloc s) in
  let s1 := Build_vm (frame_table s) (ptes s) (pages s) (swap s) pa (cur_pagedir s) in
  let r := match page0 with
           | None => frame_evict fuel flags s1
           | Some _ => Done page0 s1
           end in
  match r with
  | Done (Some a) s2 =>
      Done (Some a)
        (Build_vm (frame_table s2 ++ [Build_frame (cur_pagedir s2) a up])
                  (ptes s2) (pages s2) (swap s2) (palloc s2) (cur_pagedir s2))
  | other => other
  end.

(** [frame_free]: the first record whose address is [page] is unlinked and
    its page returned; no record, no effect. *)
Definition frame_free (page0 : option Z) (s : vm) : vm :=
  match list_find (λ f, Some (addr f) = page0) (frame_table s) with
  | Some (i, f) =>
      Build_vm (delete i (frame_table s)) (ptes s) (pages s) (swap s)
               (palloc_free_page (addr f) (palloc s)) (cur_pagedir s)
  | None => s
  end.

(** ** The eviction of the specification

    Section 4.4 of the specification keeps a scan cursor between calls:
    the scan starts at the cursor, and after the victim is unlinked the
    cursor rests on the record that followed it (the first record when the
    victim was the last). This definition follows the specification's
    words; it is compared with [frame_evict] below. *)
Fixpoint spec_evict_scan (fuel : nat) (flags : Z) (e : nat) (s : vm)
  : outcome (option Z) (vm * nat) :=
  match fuel with
  | O => OutOfFuel
  | S fuel' =>
    match frame_table s !! e with
    | None => Undefined
    | Some frame =>
      if pagedir_is_accessed (ptes s) (pagedir frame) (upage frame) then
        let s1 := Build_vm (frame_table s)
                    (pagedir_set_accessed (ptes s) (pagedir frame) (upage frame) false)
                    (pages s) (swap s) (palloc s) (cur_pagedir s) in
        spec_evict_scan fuel' flags (S e `mod` length (frame_table s))%nat s1
      else
        let '(r, s') := evict_victim flags e frame s in
        Done r (s', if decide (e = length (frame_table s')) then O else e)
    end
  end.

Definition spec_frame_evict (fuel : nat) (flags : Z) (c : vm * nat)
  : outcome (option Z) (vm * nat) :=
  spec_evict_scan fuel flags (snd c) (fst c).

(** ** Observers used to state the properties *)

Definition frame_accessed (pts : gmap (Z * Z) pte) (f : frame) : bool :=
  pagedir_is_accessed pts (pagedir f) (upage f).

(** The page tables after the scan has passed over the records [l]. *)
Definition clear_accessed_all (l : list frame) (pts : gmap (Z * Z) pte)
  : gmap (Z * Z) pte :=
  foldl (λ m f, pagedir_set_accessed m (pagedir f) (upage f) false) pts l.

(** Position of the first record that a scan from the head finds with a
    clear accessed bit, and the page tables at that moment. *)
Fixpoint first_clear (pts : gmap (Z * Z) pte) (l : list frame)
  : option (nat * gmap (Z * Z) pte) :=
  match l with
  | [] => None
  | f :: l' =>
      if frame_accessed pts f then
        match first_clear (pagedir_set_accessed pts (pagedir f) (upage f) false) l' with
        | Some (i, m) => Some (S i, m)
        | None => None
        end
      else Some (O, pts)
  end.

Definition scan_from_head (pts : gmap (Z * Z) pte) (l : list frame)
  : nat * gmap (Z * Z) pte :=
  match first_clear pts l with
  | Some r => r
  | None => (O, clear_accessed_all l pts)
  end.

Definition frame_key (f : frame) : Z * Z := (pagedir f, upage f).

Definition with_table (l : list frame) (pts : gmap (Z * Z) pte) (s : vm) : vm :=
  Build_vm l pts (pages s) (swap s) (palloc s) (cur_pagedir s).

(** The outcome of reclaiming the record [v] at position [e]. *)
Definition reclaim (flags : Z) (e : nat) (v : frame) (s : vm)
  : outcome (option Z) vm :=
  let '(r, s') := evict_victim flags e v s in Done r s'.

(** Every record's page is held from the allocator, and no two records
    share a page. *)
Definition table_inv (s : vm) : Prop :=
  NoDup (addr <$> frame_table s)
  ∧ ∀ f, f ∈ frame_table s → palloc_allocated (palloc s) (addr f).

(** ** The frame table as a transition system *)
Inductive step : vm → vm → Prop :=
| step_alloc fuel up flags s r s' :
    frame_alloc fuel up flags s = Done r s' → step s s'
| step_free page0 s :
    step s (frame_free page0 s)
| step_evict fuel flags s r s' :
    frame_evict fuel flags s = Done r s' → step s s'
| step_env s pts pgs sw pd :
    (* page-table bits, page metadata, swap and the running thread change
       behind the frame table's back *)
    step s (Build_vm (frame_table s) pts pgs sw (palloc s) pd).

End FrameTable.
Arguments vm P : clear implicits.

(** ** A first-fit page pool, an instance of the allocator interface *)

Fixpoint pool_scan (m : list bool) : option nat :=
  match m with
  | [] => None
  | b :: m' => if b then S <$> pool_scan m' else Some O
  end.

Definition pool_get (flags : Z) (m : list bool) : option Z * list bool :=
  match pool_scan m with
  | Some i => (Some (Z.of_nat i), <[i := true]> m)
  | None => (None, m)
  end.

Definition pool_free (a : Z) (m : list bool) : list bool :=
  if decide (0 ≤ a) then <[Z.to_nat a := false]> m else m.

Definition pool_allocated (m : list bool) (a : Z) : Prop :=
  0 ≤ a ∧ m !! Z.to_nat a = Some true.

#[global] Instance pool_allocator : PhysAllocator (list bool) :=
  Build_PhysAllocator (list bool) pool_get pool_free pool_allocated.

(** ** Sample states *)

Definition fr1 : frame := Build_frame 1 0 100.
Definition fr2 : frame := Build_frame 1 1 200.
Definition fr3 : frame := Build_frame 1 2 300.
Definition fr4 : frame := Build_frame 1 3 400.

(** Four resident pages on a full pool of four: the first and third
    accessed, the second and fourth not, the second dirty. *)
Definition clock_vm : vm (list bool) :=
  Build_vm [fr1; fr2; fr3; fr4]
    {[ (1, 100) := Build_pte true true false;
       (1, 200) := Build_pte true false true;
       (1, 300) := Build_pte true true false;
       (1, 400) := Build_pte true false false ]}
    ∅ [] [true; true; true; true] 1.

(** No frame record, and a pool whose two pages are held by other users. *)
Definition bare_vm : vm (list bool) :=
  Build_vm [] ∅ ∅ [] [true; true] 1.

(** No frame record and a free pool of two pages. *)
Definition fresh_vm : vm (list bool) :=
  Build_vm [] ∅ ∅ [] [false; false] 1.

End Frame.

(* ===================================================================== *)
(** * Namespace operations (filesys/filesys.c) *)
(* ===================================================================== *)
Module Filesys.

(** Modelled from the spec: the inode/object, "the persistent record
    describing a file or directory's storage layout and metadata":
    directory flag, length in bytes, first data sector and, for a directory,
    its entries (name, inode sector) in slot order. *)
Record inode_disk : Type := Build_inode_disk
  { is_dir : bool; inode_length : Z; inode_start : Z; entries : list (string * Z) }.

(** Modelled from the spec: the in-memory [struct inode] of an open inode
    with its open count ([inode->open_cnt] in [filesys_remove]); the open
    inodes are keyed by their sector, so a [struct inode *] is an
    [option Z]. *)
Record inode : Type := Build_inode { open_cnt : Z; removed : bool }.

Record fs : Type := Build_fs
  { disk : gmap Z inode_disk;     (* sector ↦ on-disk inode *)
    inodes : gmap Z inode;        (* list of open inodes *)
    free_map : gset Z;            (* sectors in use *)
    disk_size : Z;                (* number of sectors of the disk *)
    cwd : option Z }.             (* thread_current ()->dir *)

(** Modelled from the spec: the root directory's "fixed, well-known
    location" ([ROOT_DIR_SECTOR] of filesys/filesys.h) and the size of a
    sector (devices/disk.h). *)
Definition ROOT_DIR_SECTOR : Z := 1.
Definition DISK_SECTOR_SIZE : Z := 512.

Definition bytes_to_sectors (size : Z) : Z :=
  (size + DISK_SECTOR_SIZE - 1) `div` DISK_SECTOR_SIZE.

(** ** Free-space allocator *)

Definition sectors_free (used : gset Z) (st cnt : Z) : bool :=
  forallb (λ x, bool_decide (x ∉ used)) (seqZ st cnt).

(** Modelled from the spec: [allocate(count) → location|failure] of
    filesys/free-map.c, a first-fit scan for [cnt] consecutive free
    sectors. *)
Definition free_map_allocate (cnt : Z) (s : fs) : option Z * fs :=
  match list_find (λ st, sectors_free (free_map s) st cnt = true)
                  (seqZ 0 (disk_size s - cnt + 1)) with
  | Some (_, st) =>
      (Some st, Build_fs (disk s) (inodes s)
                  (free_map s ∪ list_to_set (seqZ st cnt)) (disk_size s) (cwd s))
  | None => (None, s)
  end.

(** Modelled from the spec: the inverse of [free_map_allocate], used when
    the last reference to a removed inode is closed. *)
Definition free_map_release (st cnt : Z) (s : fs) : fs :=
  Build_fs (disk s) (inodes s) (free_map s ∖ list_to_set (seqZ st cnt))
           (disk_size s) (cwd s).

(** ** Inode manager *)

Definition set_inodes (m : gmap Z inode) (s : fs) : fs :=
  Build_fs (disk s) m (free_map s) (disk_size s) (cwd s).

Definition set_disk (m : gmap Z inode_disk) (s : fs) : fs :=
  Build_fs m (inodes s) (free_map s) (disk_size s) (cwd s).

(** Modelled from the spec: [create(location, size, is_directory) → bool]
    of filesys/inode.c: the data sectors are allocated and the inode is
    written at [sector]. *)
Definition inode_create (sector len : Z) (isdir : bool) (s : fs) : bool * fs :=
  match free_map_allocate (bytes_to_sectors len) s with
  | (Some st, s1) =>
      (true, set_disk (<[sector := Build_inode_disk isdir len st []]> (disk s1)) s1)
  | (None, s1) => (false, s1)
  end.

(** Modelled from the spec: opening an inode takes one reference on the
    object, shared by all openers of the sector. *)
Definition inode_open (sector : Z) (s : fs) : option Z * fs :=
  match inodes s !! sector with
  | Some i =>
      (Some sector,
       set_inodes (<[sector := Build_inode (open_cnt i + 1) (removed i)]> (inodes s)) s)
  | None =>
      (Some sector, set_inodes (<[sector := Build_inode 1 false]> (inodes s)) s)
  end.

(** Modelled from the spec: [reopen] "increments reference"; the null
    pointer is passed through, a freed inode cannot be reopened. *)
Definition inode_reopen (p : option Z) (s : fs) : option (option Z * fs) :=
  match p with
  | None => Some (None, s)
  | Some sector =>
      i ← inodes s !! sector;
      Some (p, set_inodes (<[sector := Build_inode (open_cnt i + 1) (removed i)]> (inodes s)) s)
  end.

(** Modelled from the spec: [close(reference)] drops one reference; the
    last close frees the in-memory inode and, if the inode was removed,
    its sectors. Closing the null pointer does nothing; closing a freed
    inode is undefined. *)
Definition inode_close (p : option Z) (s : fs) : option fs :=
  match p with
  | None => Some s
  | Some sector =>
      i ← inodes s !! sector;
      if decide (open_cnt i - 1 = 0) then
        let s1 := set_inodes (delete sector (inodes s)) s in
        Some (if removed i then
                match disk s !! sector with
                | Some d =>
                    free_map_release (inode_start d) (bytes_to_sectors (inode_length d))
                      (free_map_release sector 1 s1)
                | None => free_map_release sector 1 s1
                end
              else s1)
      else
        Some (set_inodes (<[sector := Build_inode (open_cnt i - 1) (removed i)]> (inodes s)) s)
  end.

(** Modelled from the spec: marks the inode to be deleted by its last
    close (filesys/inode.c). *)
Definition inode_remove (p : option Z) (s : fs) : option fs :=
  sector ← p;
  i ← inodes s !! sector;
  Some (set_inodes (<[sector := Build_inode (open_cnt i) true]> (inodes s)) s).

(** Modelled from the spec: [is_directory(reference) → bool]; the argument
    is a reference to an open inode. *)
Definition inode_is_dir (p : option Z) (s : fs) : option bool :=
  sector ← p;
  _ ← inodes s !! sector;
  Some (match disk s !! sector with Some d => is_dir d | None => false end).

(** [inode->open_cnt], read in [filesys_remove]. *)
Definition inode_open_cnt (p : option Z) (s : fs) : option Z :=
  sector ← p;
  i ← inodes s !! sector;
  Some (open_cnt i).

(** Open count of a sector as an observer: no open inode, no reference. *)
Definition open_count (s : fs) (sector : Z) : Z :=
  match inodes s !! sector with Some i => open_cnt i | None => 0 end.

(** ** Directory store *)

(** Modelled from the spec: the directory store's [open]; a [struct dir *]
    is the pointer to its inode: [dir_open] wraps the inode it is given and
    takes over the caller's reference (only [reopen] increments it). *)
Definition dir_open (p : option Z) : option Z := p.

(** Modelled from the spec: [backing_object() → reference], the inode of an
    open directory. *)
Definition dir_get_inode (d : option Z) : option (option Z) :=
  sector ← d; Some (Some sector).

(** Modelled from the spec: the directory store's [reopen] "(increments
    reference)": a second handle on the same inode. *)
Definition dir_reopen (d : option Z) (s : fs) : option (option Z * fs) :=
  i ← dir_get_inode d;
  '(p, s1) ← inode_reopen i s;
  Some (dir_open p, s1).

(** Modelled from the spec: the directory store's [close]
    "(decrements/releases)": the handle's reference on the inode is
    dropped. *)
Definition dir_close (d : option Z) (s : fs) : option fs :=
  match d with
  | None => Some s
  | Some _ => inode_close d s
  end.

(** Modelled from the spec: a directory is a container "mapping name →
    storage-unit location"; its entries are read from its on-disk inode. *)
Definition dir_entries (s : fs) (sector : Z) : list (string * Z) :=
  match disk s !! sector with Some d => entries d | None => [] end.

Fixpoint lookup_entry (name : string) (es : list (string * Z)) : option Z :=
  match es with
  | [] => None
  | (n, sector) :: es' => if decide (n = name) then Some sector else lookup_entry name es'
  end.

(** Modelled from the spec: [lookup(name) → object-reference|absent]; on
    success the inode of the entry is opened, otherwise the result is the
    null pointer. *)
Definition dir_lookup (d : option Z) (name : string) (s : fs)
  : option (bool * option Z * fs) :=
  dsec ← d;
  match lookup_entry name (dir_entries s dsec) with
  | Some sector => let '(p, s1) := inode_open sector s in Some (true, p, s1)
  | None => Some (false, None, s)
  end.

Definition set_entries (dsec : Z) (es : list (string * Z)) (s : fs) : fs :=
  set_disk (alter (λ d, Build_inode_disk (is_dir d) (inode_length d) (inode_start d) es) dsec (disk s)) s.

(** Modelled from the spec: [is_empty → bool]. *)
Definition dir_empty (d : option Z) (s : fs) : option bool :=
  dsec ← d; Some (bool_decide (dir_entries s dsec = [])).

(** Modelled from the spec: an empty directory with room for [entry_cnt]
    entries (of 20 bytes each) is an inode with the directory flag. *)
Definition dir_create (sector entry_cnt : Z) (s : fs) : bool * fs :=
  inode_create sector (entry_cnt * 20) true s.

Section Namespace.
(** Three parts of filesys/directory.c are parameters of the operations:
    the longest name of an entry, [dir_path_and_name], which splits a name
    into the parent path (null when the name has none) and the leaf and
    fails on a name it rejects, and the directory that a parent path
    denotes, if it can be traversed. *)
Variable NAME_MAX : nat.
Variable dir_path_and_name : string → option (option string * string).
Variable dir_resolve : fs → string → option Z.

(** Modelled from the spec: [add(name, location) → bool]; fails for an
    empty or too long name and for a name already in the directory. *)
Definition dir_add (d : option Z) (name : string) (sector : Z) (s : fs)
  : option (bool * fs) :=
  dsec ← d;
  if decide (name = "" ∨ (NAME_MAX < String.length name)%nat) then Some (false, s)
  else match lookup_entry name (dir_entries s dsec) with
       | Some _ => Some (false, s)
       | None =>
           match disk s !! dsec with
           | Some _ => Some (true, set_entries dsec (dir_entries s dsec ++ [(name, sector)]) s)
           | None => Some (false, s)
           end
       end.

(** Modelled from the spec: [remove(name) → bool]; the entry is erased and
    the inode marked removed, to be freed by its last close. *)
Definition dir_remove (d : option Z) (name : string) (s : fs) : option (bool * fs) :=
  dsec ← d;
  match lookup_entry name (dir_entries s dsec) with
  | None => Some (false, s)
  | Some sector =>
      let '(p, s1) := inode_open sector s in
      let s2 := set_entries dsec (filter (λ e, e.1 ≠ name) (dir_entries s1 dsec)) s1 in
      s3 ← inode_remove p s2;
      s4 ← inode_close p s3;
      Some (true, s4)
  end.

(** Modelled from the spec: "non-empty parent-path resolves via recursive
    directory lookup": the result is a newly opened directory, or the null
    pointer. *)
Definition dir_parse (path : string) (s : fs) : option Z * fs :=
  match dir_resolve s path with
  | Some sector => let '(p, s1) := inode_open sector s in (dir_open p, s1)
  | None => (None, s)
  end.

(** Modelled from the spec: a file handle wraps the inode it is given. *)
Definition file_open (p : option Z) : option Z := p.

(** The statement shared by the three operations:
    [if (path == NULL) dir = dir_reopen (thread_current ()->dir);
     else dir = dir_parse (path);] *)
Definition resolve_parent (path : option string) (s : fs) : option (option Z * fs) :=
  match path with
  | None => dir_reopen (cwd s) s
  | Some p => Some (dir_parse p s)
  end.

(** [filesys_create]. *)
Definition filesys_create (name : string) (initial_size : Z) (isdir : bool) (s : fs)
  : option (bool * fs) :=
  match dir_path_and_name name with
  | None => Some (false, s)
  | Some (path, filename) =>
      '(parent, s1) ← resolve_parent path s;
      match parent with
      | None => Some (false, s1)
      | Some _ =>
          _ ← dir_get_inode parent;
          '(found, inode, s2) ← dir_lookup parent filename s1;
          '(success, s3) ←
            (if negb found then
               match free_map_allocate 1 s2 with
               | (Some sector, s21) =>
                   let '(ok, s22) :=
                     if isdir then dir_create sector 0 s21
                     else inode_create sector initial_size false s21 in
                   '(added, s23) ← dir_add parent filename sector s22;
                   Some (ok && added, s23)
               | (None, s21) => Some (false, s21)
               end
             else
               s21 ← inode_close inode s2; Some (false, s21));
          s4 ← dir_close parent s3;
          Some (success, s4)
      end
  end.

(** [filesys_open]. *)
Definition filesys_open (name : string) (s : fs) : option (option Z * fs) :=
  match dir_path_and_name name with
  | None => Some (None, s)
  | Some (path, filename) =>
      '(dir, s1) ← resolve_parent path s;
      match dir with
      | None => Some (None, s1)
      | Some _ =>
          if decide (filename = "") then
            i ← dir_get_inode dir; Some (file_open i, s1)
          else
            '(_, inode, s2) ← dir_lookup dir filename s1;
            s3 ← dir_close dir s2;
            Some (file_open inode, s3)
      end
  end.

(** [filesys_remove]; a null [name] is [None]. *)
Definition filesys_remove (name : option string) (s : fs) : option (bool * fs) :=
  match name with
  | None => Some (false, s)
  | Some name =>
  match dir_path_and_name name with
  | None => Some (false, s)
  | Some (path, filename) =>
      '(dir, s1) ← resolve_parent path s;
      match dir with
      | None => Some (false, s1)
      | Some _ =>
          if decide (filename = "") then Some (false, s1)
          else
            '(_, inode, s2) ← dir_lookup dir filename s1;
            cwd_inode ← dir_get_inode (cwd s2);
            if decide (inode = cwd_inode) then
              s3 ← dir_close dir s2;
              s4 ← inode_close inode s3;
              Some (false, s4)
            else
              isd ← inode_is_dir inode s2;
              '(success, s3) ←
                (if isd : bool then
                   let target_dir := dir_open inode in
                   empty ← dir_empty target_dir s2;
                   if empty : bool then
                     s21 ← dir_close target_dir s2;
                     cnt ← inode_open_cnt inode s21;
                     if decide (cnt ≤ 1) then dir_remove dir filename s21
                     else Some (false, s21)
                   else
                     s21 ← dir_close target_dir s2; Some (false, s21)
                 else dir_remove dir filename s2);
              s4 ← dir_close dir s3;
              s5 ← inode_close inode s4;
              Some (success, s5)
      end
  end
  end.

End Namespace.

(** ** A concrete name syntax, used to run the operations

    Modelled from the spec: "Split name into parent-path and leaf" at the
    last slash, and "recursive directory lookup" of the components of the
    parent path, from the root for an absolute path and from the working
    directory otherwise. *)
Fixpoint split_last (s : string) : option (string * string) :=
  match s with
  | EmptyString => None
  | String c r =>
      match split_last r with
      | Some (p, l) => Some (String c p, l)
      | None => if decide (c = "/"%char) then Some (EmptyString, r) else None
      end
  end.

Definition path_and_name (name : string) : option (option string * string) :=
  match split_last name with
  | None => Some (None, name)
  | Some (p, l) => Some (Some (if decide (p = "") then "/" else p), l)
  end.

Fixpoint path_tokens (s cur : string) : list string :=
  match s with
  | EmptyString => if decide (cur = "") then [] else [cur]
  | String c r =>
      if decide (c = "/"%char)
      then (if decide (cur = "") then [] else [cur]) ++ path_tokens r ""
      else path_tokens r (cur +:+ String c EmptyString)
  end.

Fixpoint walk (s : fs) (d : Z) (toks : list string) : option Z :=
  match toks with
  | [] => Some d
  | t :: toks' =>
      sector ← lookup_entry t (dir_entries s d);
      inode ← disk s !! sector;
      if is_dir inode then walk s sector toks' else None
  end.

Definition resolve_path (s : fs) (path : string) : option Z :=
  d ← (match path with
       | String "/" _ => Some ROOT_DIR_SECTOR
       | _ => cwd s
       end);
  walk s d (path_tokens path "").

(** Open counts of open inodes are positive (an inode whose count drops to
    zero leaves the list). *)
Definition inodes_wf (s : fs) : Prop :=
  ∀ sector i, inodes s !! sector = Some i → 0 < open_cnt i.

(** ** Sample states *)

(** A freshly formatted disk of 64 sectors: free map in sector 0, the empty
    root directory in sector 1, open as the caller's working directory. *)
Definition root_fs : fs :=
  Build_fs {[ 1 := Build_inode_disk true 0 0 [] ]}
           {[ 1 := Build_inode 1 false ]}
           {[ 0; 1 ]} 64 (Some 1).

(** The root holds the empty directory [a] (sector 2), which nobody has
    open. *)
Definition lone_fs : fs :=
  Build_fs {[ 1 := Build_inode_disk true 0 0 [("a"%string, 2)];
              2 := Build_inode_disk true 0 0 [] ]}
           {[ 1 := Build_inode 1 false ]}
           {[ 0; 1; 2 ]} 64 (Some 1).

(** The root holds the empty directory [a] (sector 2), which one other
    context has open. *)
Definition busy_fs : fs :=
  Build_fs {[ 1 := Build_inode_disk true 0 0 [("a"%string, 2)];
              2 := Build_inode_disk true 0 0 [] ]}
           {[ 1 := Build_inode 1 false; 2 := Build_inode 1 false ]}
           {[ 0; 1; 2 ]} 64 (Some 1).

End Filesys.

(* ===================================================================== *)
(** * Further sample states *)
(* ===================================================================== *)
Module Samples.
Import Frame.

(** Three resident pages on a full pool, every one accessed. *)
Definition hot_vm : vm (list bool) :=
  Build_vm [fr1; fr2; fr3]
    {[ (1, 100) := Build_pte true true false;
       (1, 200) := Build_pte true true true;
       (1, 300) := Build_pte true true false ]}
    ∅ [] [true; true; true] 1.

(** Two records for the same user page of the same page directory, on
    different physical pages, followed by a record of another page. *)
Definition alias_vm : vm (list bool) :=
  Build_vm [Build_frame 1 0 100; Build_frame 1 1 100; fr3]
    {[ (1, 100) := Build_pte true true false;
       (1, 300) := Build_pte true false false ]}
    ∅ [] [true; true; true] 1.


(** No frame record and a user pool without any page. *)
Definition no_pool_vm : vm (list bool) :=
  Build_vm [] ∅ ∅ [] [] 1.

End Samples.

(* ===================================================================== *)
(** * The frame table as the only user of the pool *)
(* ===================================================================== *)
Module FrameUse.
Import Frame.

Section Use.
Context {P : Type} `{PhysAllocator P}.

(** An allocator with at least one page ([ok]) that keeps exact account of
    the pages it has handed out and reports exhaustion only when some page
    is handed out. *)
Record PhysAllocatorTight (ok : P → Prop) : Prop := Build_PhysAllocatorTight
  { tight_get_some : ∀ fl p a p',
      ok p → palloc_get_page fl p = (Some a, p') →
      ok p' ∧ ¬ palloc_allocated p a
      ∧ ∀ b, palloc_allocated p' b ↔ b = a ∨ palloc_allocated p b;
    tight_get_none : ∀ fl p p',
      ok p → palloc_get_page fl p = (None, p') →
      ok p' ∧ (∀ b, palloc_allocated p' b ↔ palloc_allocated p b)
      ∧ ∃ a, palloc_allocated p a;
    tight_free : ∀ a p,
      ok p →
      ok (palloc_free_page a p)
      ∧ ∀ b, palloc_allocated (palloc_free_page a p) b ↔ b ≠ a ∧ palloc_allocated p b }.

(** The calls that the rest of the kernel makes: [frame_evict] is called by
    [frame_alloc] only. *)
Inductive use_step : vm P → vm P → Prop :=
| use_alloc fuel up flags s r s' :
    frame_alloc fuel up flags s = Done r s' → use_step s s'
| use_free page0 s :
    use_step s (frame_free page0 s)
| use_env s pts pgs sw pd :
    use_step s (Build_vm (frame_table s) pts pgs sw (palloc s) pd).

(** The pages handed out are exactly the pages of the records, once each. *)
Definition pages_recorded (ok : P → Prop) (s : vm P) : Prop :=
  ok (palloc s)
  ∧ NoDup (addr <$> frame_table s)
  ∧ ∀ a, palloc_allocated (palloc s) a ↔ a ∈ addr <$> frame_table s.

End Use.

Definition pool_ok (m : list bool) : Prop := m ≠ [].

End FrameUse.

Module FsSamples.
Import Filesys.

(** The root holds the regular file [f] (inode in sector 2, 100 bytes of
    data in sector 3), which nobody has open. *)
Definition file_fs : fs :=
  Build_fs {[ 1 := Build_inode_disk true 0 0 [("f"%string, 2)];
              2 := Build_inode_disk false 100 3 [] ]}
           {[ 1 := Build_inode 1 false ]}
           {[ 0; 1; 2; 3 ]} 64 (Some 1).

(** The root holds the empty directory [a] (sector 2), which is the
    caller's working directory. *)
Definition sub_fs : fs :=
  Build_fs {[ 1 := Build_inode_disk true 0 0 [("a"%string, 2)];
              2 := Build_inode_disk true 0 0 [] ]}
           {[ 2 := Build_inode 1 false ]}
           {[ 0; 1; 2 ]} 64 (Some 2).

End FsSamples.

(* ===================================================================== *)
(** * Properties of the frame table *)
(* ===================================================================== *)
Module FrameFacts.
Import Frame Samples FrameUse.

(** ** Page-table bits *)

Lemma set_accessed_same pts pd up :
  pagedir_is_accessed (pagedir_set_accessed pts pd up false) pd up = false.
Proof.
  unfold pagedir_is_accessed, pagedir_set_accessed.
  rewrite lookup_alter_eq. by destruct (pts !! (pd, up)).
Qed.

Lemma set_accessed_other pts pd up pd' up' b :
  (pd, up) ≠ (pd', up') →
  pagedir_is_accessed (pagedir_set_accessed pts pd up b) pd' up'
  = pagedir_is_accessed pts pd' up'.
Proof.
  intros Hne. unfold pagedir_is_accessed, pagedir_set_accessed.
  by rewrite lookup_alter_ne.
Qed.

(** Clearing a bit never sets one. *)
Lemma set_accessed_mono pts pd up pd' up' :
  pagedir_is_accessed (pagedir_set_accessed pts pd up false) pd' up' = true →
  pagedir_is_accessed pts pd' up' = true.
Proof.
  destruct (decide ((pd, up) = (pd', up'))) as [[= -> ->]|Hne].
  - by rewrite set_accessed_same.
  - by rewrite set_accessed_other.
Qed.

Lemma clear_all_mono l pts f :
  frame_accessed (clear_accessed_all l pts) f = true → frame_accessed pts f = true.
Proof.
  revert pts. induction l as [|g l IH]; intros pts; simpl; [done|].
  intros Hacc. apply IH in Hacc. by apply set_accessed_mono in Hacc.
Qed.

Lemma clear_all_key l pts f :
  frame_accessed (clear_accessed_all l pts) f = true →
  ∀ g, g ∈ l → frame_key g ≠ frame_key f.
Proof.
  revert pts. induction l as [|h l IH]; intros pts Hacc g Hg.
  - by apply elem_of_nil in Hg.
  - simpl in Hacc. apply elem_of_cons in Hg as [->|Hg]; [|by eapply IH].
    apply clear_all_mono in Hacc. unfold frame_key. intros [= Hpd Hup].
    unfold frame_accessed in Hacc. rewrite <- Hpd, <- Hup in Hacc.
    by rewrite set_accessed_same in Hacc.
Qed.

Lemma clear_all_elem l pts f :
  f ∈ l → frame_accessed (clear_accessed_all l pts) f = false.
Proof.
  intros Hf. destruct (frame_accessed _ f) eqn:Hacc; [|done].
  by destruct (clear_all_key _ _ _ Hacc f Hf).
Qed.


Lemma clear_all_snoc l f pts :
  clear_accessed_all (l ++ [f]) pts
  = pagedir_set_accessed (clear_accessed_all l pts) (pagedir f) (upage f) false.
Proof. unfold clear_accessed_all. by rewrite foldl_app. Qed.

(** ** The scan from the head of the list *)

Lemma first_clear_spec l : ∀ pts i m,
  first_clear pts l = Some (i, m) →
  ∃ v, l !! i = Some v
       ∧ m = clear_accessed_all (take i l) pts
       ∧ frame_accessed m v = false
       ∧ ∀ j f, (j < i)%nat → l !! j = Some f →
                frame_accessed (clear_accessed_all (take j l) pts) f = true.
Proof.
  induction l as [|g l IH]; intros pts i m; simpl; [done|].
  destruct (frame_accessed pts g) eqn:Hg.
  - destruct (first_clear _ l) as [[i' m']|] eqn:Hfc; [|done].
    intros [= <- <-]. destruct (IH _ _ _ Hfc) as (v & Hv & Hm & Hclr & Hbefore).
    exists v. simpl. split_and!; try done.
    intros [|j] f Hj Hf; simpl in *.
    + by inversion Hf; subst.
    + apply Hbefore; [lia|done].
  - intros [= <- <-]. exists g. simpl. split_and!; try done. intros; lia.
Qed.


Lemma first_clear_none l : ∀ pts,
  first_clear pts l = None →
  ∀ j f, l !! j = Some f → frame_accessed (clear_accessed_all (take j l) pts) f = true.
Proof.
  induction l as [|g l IH]; intros pts; simpl; [done|].
  destruct (frame_accessed pts g) eqn:Hg; [|done].
  destruct (first_clear _ l) as [[i' m']|] eqn:Hfc; [done|]. intros _.
  intros [|j] f Hf; simpl in *.
  - by inversion Hf; subst.
  - by apply IH.
Qed.

Section Scan.
Context {P : Type} `{PhysAllocator P}.

(** The scan is at position [length pre] and finds its victim [i] records
    further on, before the end of the list. *)
Lemma scan_found flags s rest : ∀ pre pts i m v fuel,
  first_clear pts rest = Some (i, m) →
  rest !! i = Some v →
  (i < fuel)%nat →
  evict_scan fuel flags (length pre) (with_table (pre ++ rest) pts s)
  = reclaim flags (length pre + i) v (with_table (pre ++ rest) m s).
Proof.
  induction rest as [|g rest IH]; intros pre pts i m v fuel Hfc Hv Hfuel; [done|].
  destruct fuel as [|fuel]; [lia|].
  simpl in Hfc. simpl evict_scan.
  rewrite lookup_app_r, Nat.sub_diag by lia. simpl.
  unfold frame_accessed in Hfc.
  destruct (pagedir_is_accessed pts (pagedir g) (upage g)) eqn:Hg.
  - destruct (first_clear _ rest) as [[i' m']|] eqn:Hfc'; [|done].
    injection Hfc as <- <-. simpl in Hv.
    assert (rest ≠ []) as Hne by (intros ->; done).
    rewrite decide_False.
    2:{ rewrite length_app. simpl. destruct rest; [done|]. simpl. lia. }
    specialize (IH (pre ++ [g]) _ _ _ v fuel Hfc' Hv ltac:(lia)).
    rewrite length_app, <- app_assoc in IH. simpl in IH.
    replace (length pre + 1)%nat with (S (length pre)) in IH by lia.
    unfold with_table in *. simpl in *. rewrite IH.
    f_equal. lia.
  - injection Hfc as <- <-. injection Hv as ->.
    unfold reclaim. by rewrite Nat.add_0_r.
Qed.

(** The scan is at position [length pre] and every record up to the end of
    the list is found accessed: the scan wraps to the head. *)
Lemma scan_lap flags s rest : ∀ pre pts fuel,
  rest ≠ [] →
  first_clear pts rest = None →
  evict_scan (length rest + fuel) flags (length pre) (with_table (pre ++ rest) pts s)
  = evict_scan fuel flags O (with_table (pre ++ rest) (clear_accessed_all rest pts) s).
Proof.
  induction rest as [|g rest IH]; intros pre pts fuel Hne Hfc; [done|].
  simpl in Hfc. simpl evict_scan.
  rewrite lookup_app_r, Nat.sub_diag by lia. simpl.
  unfold frame_accessed in Hfc.
  destruct (pagedir_is_accessed pts (pagedir g) (upage g)) eqn:Hg; [|done].
  destruct (first_clear _ rest) as [[i' m']|] eqn:Hfc'; [done|].
  destruct rest as [|g' rest].
  - rewrite decide_True by (rewrite length_app; simpl; lia). done.
  - rewrite decide_False by (rewrite length_app; simpl; lia).
    specialize (IH (pre ++ [g]) _ fuel ltac:(done) Hfc').
    rewrite length_app, <- app_assoc in IH. simpl in IH.
    replace (length pre + 1)%nat with (S (length pre)) in IH by lia.
    unfold with_table in *. simpl in *. by rewrite IH.
Qed.

Lemma with_table_id (s : vm P) : with_table (frame_table s) (ptes s) s = s.
Proof. by destruct s. Qed.

Lemma with_table_eq (s : vm P) l : frame_table s = l → with_table l (ptes s) s = s.
Proof. intros <-. apply with_table_id. Qed.

(** The whole scan, from the head: either the first lap finds a record with
    a clear bit, or it clears every bit and the head is taken on the second
    lap. *)
Lemma scan_head flags (s : vm P) i m :
  frame_table s ≠ [] →
  scan_from_head (ptes s) (frame_table s) = (i, m) →
  ∃ v, frame_table s !! i = Some v
       ∧ ∀ fuel, (length (frame_table s) < fuel)%nat →
           frame_evict fuel flags s = reclaim flags i v (with_table (frame_table s) m s).
Proof.
  intros Hne. unfold scan_from_head.
  destruct (first_clear (ptes s) (frame_table s)) as [[i' m']|] eqn:Hfc.
  - intros [= -> ->].
    destruct (first_clear_spec _ _ _ _ Hfc) as (v & Hv & _).
    exists v. split; [done|]. intros fuel Hfuel.
    pose proof (lookup_lt_Some _ _ _ Hv) as Hlt.
    pose proof (scan_found flags s (frame_table s) [] (ptes s) i m v fuel Hfc Hv) as Hscan.
    simpl in Hscan. rewrite with_table_id in Hscan. apply Hscan. lia.
  - intros [= <- <-].
    destruct (frame_table s) as [|f0 tl] eqn:Htbl; [done|].
    exists f0. split; [done|]. intros fuel Hfuel.
    pose proof (scan_lap flags s (f0 :: tl) [] (ptes s)
                  (fuel - length (f0 :: tl)) ltac:(done) Hfc) as Hlap.
    cbn [app] in Hlap. rewrite (with_table_eq s _ Htbl) in Hlap.
    replace (length (f0 :: tl) + (fuel - length (f0 :: tl)))%nat with fuel in Hlap by lia.
    unfold frame_evict. cbn [length] in Hlap. rewrite Hlap.
    apply (scan_found flags s (f0 :: tl) [] _ O _ f0); [|done|cbn [length] in *; lia].
    assert (frame_accessed (clear_accessed_all (f0 :: tl) (ptes s)) f0 = false) as Hclr
      by (apply clear_all_elem; by left).
    cbn [first_clear]. by rewrite Hclr.
Qed.

Lemma evict_victim_eq flags e v (s : vm P) :
  ∃ pgs sw,
    evict_victim flags e v s
    = ((palloc_get_page (Z.lor PAL_USER flags) (palloc_free_page (addr v) (palloc s))).1,
       Build_vm (delete e (frame_table s))
         (pagedir_clear_page (ptes s) (pagedir v) (upage v)) pgs sw
         (palloc_get_page (Z.lor PAL_USER flags) (palloc_free_page (addr v) (palloc s))).2
         (cur_pagedir s)).
Proof.
  unfold evict_victim.
  destruct (pagedir_is_dirty _ _ _); simpl;
    destruct (palloc_get_page _ _); simpl; by do 2 eexists.
Qed.

(** C1 (as amended): the eviction operation keeps no cursor between
    invocations. Whatever calls came before, a call on a non-empty live set
    starts inspecting at the first record and follows append order,
    wrapping from the last record to the first: its victim is the record
    that a scan from the head ([scan_from_head]) arrives at, and the
    accessed bits it has cleared are those of the records from the head up
    to the victim. In particular a head record whose accessed bit is clear
    is the victim at once. *)
Theorem evict_scans_from_head flags (s : vm P) :
  frame_table s ≠ [] →
  (∃ v, frame_table s !! (scan_from_head (ptes s) (frame_table s)).1 = Some v
        ∧ ∀ fuel, (length (frame_table s) < fuel)%nat →
            frame_evict fuel flags s
            = reclaim flags (scan_from_head (ptes s) (frame_table s)).1 v
                (with_table (frame_table s)
                   (scan_from_head (ptes s) (frame_table s)).2 s))
  ∧ (∀ f, frame_table s !! O = Some f → frame_accessed (ptes s) f = false →
          ∀ fuel, frame_evict (S fuel) flags s = reclaim flags O f s).
Proof.
  intros Hne. split.
  - destruct (scan_from_head (ptes s) (frame_table s)) as [i m] eqn:Hscan.
    apply scan_head; done.
  - intros f Hf Hclr fuel. unfold frame_evict. simpl. rewrite Hf.
    unfold frame_accessed in Hclr. by rewrite Hclr.
Qed.



(** With no frame record and an allocator that reports exhaustion,
    [frame_alloc] enters the eviction scan on the empty list, which reads
    the record of the list's sentinel. *)
Lemma alloc_scans_empty_table fuel up flags (s : vm P) pa :
  frame_table s = [] →
  palloc_get_page (Z.lor PAL_USER flags) (palloc s) = (None, pa) →
  frame_alloc (S fuel) up flags s = Undefined.
Proof.
  intros Htbl Hget. unfold frame_alloc. rewrite Hget.
  unfold frame_evict. simpl. by rewrite Htbl.
Qed.

End Scan.

(** ** Exclusive ownership of physical pages *)

Lemma lookup_delete_addr (l : list frame) i f :
  NoDup (addr <$> l) → l !! i = Some f →
  NoDup (addr <$> delete i l) ∧ ∀ g, g ∈ delete i l → g ∈ l ∧ addr g ≠ addr f.
Proof.
  intros Hnd Hf. split.
  - eapply sublist_NoDup; [done|]. apply fmap_sublist, sublist_delete.
  - rewrite delete_take_drop. rewrite <- (take_drop_middle l i f Hf) in Hnd.
    rewrite fmap_app, fmap_cons in Hnd.
    apply NoDup_app in Hnd as (_ & Hdisj & Htl).
    apply NoDup_cons in Htl as [Hnotin _].
    intros g Hg. split.
    + rewrite <- (take_drop_middle l i f Hf).
      apply elem_of_app in Hg as [Hg|Hg]; apply elem_of_app; [by left|right; by right].
    + intros Heq. apply elem_of_app in Hg as [Hg|Hg].
      * apply (Hdisj (addr g)); [by apply list_elem_of_fmap_2|]. rewrite Heq. by left.
      * apply Hnotin. rewrite <- Heq. by apply list_elem_of_fmap_2.
Qed.

Section Exclusive.
Context {P : Type} `{PhysAllocator P}.
Hypothesis sound : PhysAllocatorSound P.

Lemma evict_victim_inv flags e v (s : vm P) r s' :
  table_inv s → frame_table s !! e = Some v →
  evict_victim flags e v s = (r, s') →
  table_inv s'
  ∧ ∀ a, r = Some a → palloc_allocated (palloc s') a ∧ a ∉ addr <$> frame_table s'.
Proof.
  intros [Hnd Hall] Hv Hvic.
  destruct (evict_victim_eq flags e v s) as (pgs & sw & Heq).
  rewrite Heq in Hvic. injection Hvic as <- <-.
  destruct (lookup_delete_addr _ _ _ Hnd Hv) as [Hnd' Hother].
  destruct (palloc_get_page (Z.lor PAL_USER flags)
              (palloc_free_page (addr v) (palloc s))) as [r pa] eqn:Hget.
  assert (∀ g, g ∈ delete e (frame_table s) →
               palloc_allocated (palloc_free_page (addr v) (palloc s)) (addr g)) as Hfreed.
  { intros g [Hg Hne]%Hother. apply (free_page_keeps P sound); [done|]. by apply Hall. }
  simpl. split; [split|].
  - done.
  - simpl. intros g Hg. eapply (get_page_keeps P sound); [done|]. by apply Hfreed.
  - intros a ->. split.
    + by eapply (get_page_marks P sound).
    + intros (g & -> & Hg)%list_elem_of_fmap_1.
      eapply (get_page_fresh P sound); [done|]. by apply Hfreed.
Qed.

Lemma evict_scan_inv flags fuel : ∀ e (s : vm P) r s',
  table_inv s → evict_scan fuel flags e s = Done r s' →
  table_inv s'
  ∧ ∀ a, r = Some a → palloc_allocated (palloc s') a ∧ a ∉ addr <$> frame_table s'.
Proof.
  induction fuel as [|fuel IH]; intros e s r s' Hinv; simpl; [done|].
  destruct (frame_table s !! e) as [v|] eqn:Hv; [|done].
  destruct (pagedir_is_accessed _ _ _).
  - apply IH. done.
  - destruct (evict_victim flags e v s) as [r0 s0] eqn:Hvic.
    intros [= <- <-]. by eapply evict_victim_inv.
Qed.

Lemma table_inv_push (s : vm P) a pd up :
  table_inv s → palloc_allocated (palloc s) a → a ∉ addr <$> frame_table s →
  table_inv (Build_vm (frame_table s ++ [Build_frame pd a up])
               (ptes s) (pages s) (swap s) (palloc s) (cur_pagedir s)).
Proof.
  intros [Hnd Hall] Ha Hfresh. split; simpl.
  - rewrite fmap_app. apply NoDup_app. split_and!; [done| |apply NoDup_singleton].
    intros x Hx ->%list_elem_of_singleton. done.
  - intros f [Hf| ->%list_elem_of_singleton]%elem_of_app; [by apply Hall|done].
Qed.

Lemma frame_alloc_inv fuel up flags (s : vm P) r s' :
  table_inv s → frame_alloc fuel up flags s = Done r s' → table_inv s'.
Proof.
  intros [Hnd Hall]. unfold frame_alloc.
  destruct (palloc_get_page _ (palloc s)) as [[a|] pa] eqn:Hget.
  - intros [= <- <-].
    apply (table_inv_push (Build_vm _ _ _ _ _ _)); simpl.
    + split; [done|]. simpl. intros f Hf.
      eapply (get_page_keeps P sound); [done|]. by apply Hall.
    + by eapply (get_page_marks P sound).
    + intros (g & -> & Hg)%list_elem_of_fmap_1.
      eapply (get_page_fresh P sound); [done|]. by apply Hall.
  - destruct (frame_evict _ _ _) as [[a|] s2| |] eqn:Hev; [| |done..].
    + intros [= <- <-]. unfold frame_evict in Hev.
      apply evict_scan_inv in Hev as [Hinv Hr].
      * destruct (Hr a eq_refl). by apply table_inv_push.
      * split; [done|]. simpl. intros f Hf.
        eapply (get_page_keeps P sound); [done|]. by apply Hall.
    + intros [= <- <-]. unfold frame_evict in Hev.
      apply evict_scan_inv in Hev as [Hinv _]; [done|].
      split; [done|]. simpl. intros f Hf.
      eapply (get_page_keeps P sound); [done|]. by apply Hall.
Qed.

Lemma frame_free_inv page0 (s : vm P) :
  table_inv s → table_inv (frame_free page0 s).
Proof.
  intros [Hnd Hall]. unfold frame_free.
  destruct (list_find _ _) as [[i f]|] eqn:Hfind; [|done].
  apply list_find_Some in Hfind as (Hf & _ & _).
  destruct (lookup_delete_addr _ _ _ Hnd Hf) as [Hnd' Hother].
  split; simpl; [done|].
  intros g [Hg Hne]%Hother. apply (free_page_keeps P sound); [done|]. by apply Hall.
Qed.

Lemma step_inv (s s' : vm P) : step s s' → table_inv s → table_inv s'.
Proof.
  destruct 1 as [fuel up flags s r s' Halloc|page0 s|fuel flags s r s' Hev|s pts pgs sw pd];
    intros Hinv.
  - by eapply frame_alloc_inv.
  - by apply frame_free_inv.
  - unfold frame_evict in Hev. by apply evict_scan_inv in Hev as [? _].
  - destruct Hinv. by split.
Qed.

(** C9: starting from an empty frame table, after any sequence of
    allocate, free and evict operations (interleaved with arbitrary changes
    of the page tables and of the running thread), no physical address
    appears in two records of the live set, provided the physical allocator
    never hands out a page that is currently allocated. *)
Theorem frame_exclusivity (s0 s : vm P) :
  frame_table s0 = [] → rtc step s0 s → NoDup (addr <$> frame_table s).
Proof.
  intros Hinit Hsteps.
  assert (table_inv s0) as Hinv0.
  { split; rewrite Hinit; [apply NoDup_nil_2|]. by intros f ?%elem_of_nil. }
  clear Hinit. assert (table_inv s) as [Hnd _]; [|done].
  induction Hsteps as [|s1 s2 s3 Hstep _ IH]; [done|].
  apply IH. by eapply step_inv.
Qed.

End Exclusive.

(** ** Exhaustion and the empty table *)

Lemma elem_of_delete_or (l : list frame) i f g :
  l !! i = Some f → g ∈ l → g = f ∨ g ∈ delete i l.
Proof.
  intros Hf Hg. rewrite delete_take_drop.
  rewrite <- (take_drop_middle l i f Hf) in Hg.
  apply elem_of_app in Hg as [Hg|[->|Hg]%elem_of_cons]; [right|by left|right];
    apply elem_of_app; [by left|by right].
Qed.

Section Guard.
Context {P : Type} `{PhysAllocator P}.
Variable ok : P → Prop.
Hypothesis tight : PhysAllocatorTight ok.

Lemma evict_victim_recorded flags e v (s : vm P) r s' :
  pages_recorded ok s → frame_table s !! e = Some v →
  evict_victim flags e v s = (r, s') →
  ok (palloc s')
  ∧ NoDup (addr <$> frame_table s')
  ∧ (∀ a, palloc_allocated (palloc s') a ↔ r = Some a ∨ a ∈ addr <$> frame_table s')
  ∧ (∀ a, r = Some a → a ∉ addr <$> frame_table s').
Proof.
  intros (Hok & Hnd & Hrec) Hv Hvic.
  destruct (evict_victim_eq flags e v s) as (pgs & sw & Heq).
  rewrite Heq in Hvic. injection Hvic as <- <-. simpl.
  destruct (lookup_delete_addr _ _ _ Hnd Hv) as [Hnd' Hother].
  destruct (tight_free ok tight (addr v) (palloc s) Hok) as [Hok1 Hfree].
  assert (∀ a, palloc_allocated (palloc_free_page (addr v) (palloc s)) a
               ↔ a ∈ addr <$> delete e (frame_table s)) as Hrec1.
  { intros a. rewrite Hfree, Hrec. split.
    - intros [Hne (g & -> & Hg)%list_elem_of_fmap_1].
      destruct (elem_of_delete_or _ _ _ _ Hv Hg) as [->|Hg']; [done|].
      by apply list_elem_of_fmap_2.
    - intros (g & -> & [Hg Hne]%Hother)%list_elem_of_fmap_1. split; [done|].
      by apply list_elem_of_fmap_2. }
  destruct (palloc_get_page (Z.lor PAL_USER flags)
              (palloc_free_page (addr v) (palloc s))) as [[a|] pa] eqn:Hget; simpl.
  - destruct (tight_get_some ok tight _ _ _ _ Hok1 Hget) as (Hok2 & Hfresh & Hmark).
    split_and!; [done..| |].
    + intros b. rewrite Hmark, Hrec1. split; intros [Hb|Hb]; eauto.
      * left. congruence.
      * left. congruence.
    + intros b [= <-]. by rewrite <- Hrec1.
  - destruct (tight_get_none ok tight _ _ _ Hok1 Hget) as (Hok2 & Hsame & _).
    split_and!; [done..| |done].
    intros b. rewrite Hsame, Hrec1. split; [eauto|]. by intros [?|?].
Qed.

Lemma evict_scan_recorded flags fuel : ∀ e (s : vm P) r s',
  pages_recorded ok s → evict_scan fuel flags e s = Done r s' →
  ok (palloc s')
  ∧ NoDup (addr <$> frame_table s')
  ∧ (∀ a, palloc_allocated (palloc s') a ↔ r = Some a ∨ a ∈ addr <$> frame_table s')
  ∧ (∀ a, r = Some a → a ∉ addr <$> frame_table s').
Proof.
  induction fuel as [|fuel IH]; intros e s r s' Hrec; simpl; [done|].
  destruct (frame_table s !! e) as [v|] eqn:Hv; [|done].
  destruct (pagedir_is_accessed _ _ _).
  - apply IH. exact Hrec.
  - destruct (evict_victim flags e v s) as [r0 s0] eqn:Hvic.
    intros [= <- <-]. by eapply evict_victim_recorded.
Qed.

Lemma pages_recorded_push (s : vm P) a pd up :
  ok (palloc s) → NoDup (addr <$> frame_table s) →
  (∀ b, palloc_allocated (palloc s) b ↔ b = a ∨ b ∈ addr <$> frame_table s) →
  a ∉ addr <$> frame_table s →
  pages_recorded ok
    (Build_vm (frame_table s ++ [Build_frame pd a up])
              (ptes s) (pages s) (swap s) (palloc s) (cur_pagedir s)).
Proof.
  intros Hok Hnd Hrec Hfresh. split_and!; simpl; [done| |].
  - rewrite fmap_app. apply NoDup_app. split_and!; [done| |apply NoDup_singleton].
    intros x Hx ->%list_elem_of_singleton. done.
  - intros b. rewrite Hrec, fmap_app, elem_of_app. simpl.
    rewrite list_elem_of_singleton. tauto.
Qed.

Lemma frame_alloc_recorded fuel up flags (s : vm P) r s' :
  pages_recorded ok s → frame_alloc fuel up flags s = Done r s' → pages_recorded ok s'.
Proof.
  intros (Hok & Hnd & Hrec). unfold frame_alloc.
  destruct (palloc_get_page _ (palloc s)) as [[a|] pa] eqn:Hget.
  - destruct (tight_get_some ok tight _ _ _ _ Hok Hget) as (Hok1 & Hfresh & Hmark).
    intros [= <- <-].
    apply (pages_recorded_push (Build_vm _ _ _ _ _ _)); simpl; [done..| |].
    + intros b. by rewrite Hmark, Hrec.
    + by rewrite <- Hrec.
  - destruct (tight_get_none ok tight _ _ _ Hok Hget) as (Hok1 & Hsame & _).
    assert (pages_recorded ok
              (Build_vm (frame_table s) (ptes s) (pages s) (swap s) pa (cur_pagedir s)))
      as Hrec1.
    { split_and!; simpl; [done..|]. intros b. by rewrite Hsame. }
    destruct (frame_evict _ _ _) as [[a|] s2| |] eqn:Hev; [| |done..];
      unfold frame_evict in Hev;
      apply (evict_scan_recorded _ _ _ _ _ _ Hrec1) in Hev as (Hok2 & Hnd2 & Hrec2 & Hnew);
      intros [= <- <-].
    + apply pages_recorded_push; [done..| |by apply Hnew].
      intros b. rewrite Hrec2. split; intros [Hb|Hb]; eauto; left; congruence.
    + split_and!; [done..|]. intros b. rewrite Hrec2. split; [by intros [?|?]|eauto].
Qed.

Lemma frame_free_recorded page0 (s : vm P) :
  pages_recorded ok s → pages_recorded ok (frame_free page0 s).
Proof.
  intros (Hok & Hnd & Hrec). unfold frame_free.
  destruct (list_find _ _) as [[i f]|] eqn:Hfind; [|done].
  apply list_find_Some in Hfind as (Hf & _ & _).
  destruct (lookup_delete_addr _ _ _ Hnd Hf) as [Hnd' Hother].
  destruct (tight_free ok tight (addr f) (palloc s) Hok) as [Hok1 Hfree].
  split_and!; simpl; [done..|].
  intros a. rewrite Hfree, Hrec. split.
  - intros [Hne (g & -> & Hg)%list_elem_of_fmap_1].
    destruct (elem_of_delete_or _ _ _ _ Hf Hg) as [->|Hg']; [done|].
    by apply list_elem_of_fmap_2.
  - intros (g & -> & [Hg Hne]%Hother)%list_elem_of_fmap_1. split; [done|].
    by apply list_elem_of_fmap_2.
Qed.

Lemma use_step_recorded (s s' : vm P) :
  use_step s s' → pages_recorded ok s → pages_recorded ok s'.
Proof.
  destruct 1 as [fuel up flags s r s' Halloc|page0 s|s pts pgs sw pd]; intros Hrec.
  - by eapply frame_alloc_recorded.
  - by apply frame_free_recorded.
  - exact Hrec.
Qed.

(** C3 (as amended): [frame_alloc] calls the eviction operation whenever
    the allocator reports exhaustion, without a test of the frame table.
    The eviction is nevertheless entered only with a non-empty live set when
    the user pool has at least one page and its pages are taken and returned
    by the frame table alone: starting from the empty table with no page
    handed out, after any sequence of allocations and frees, an allocator
    that reports exhaustion means that some frame is recorded, and the
    allocation returns. *)
Theorem alloc_evicts_nonempty_table (s0 s : vm P) up flags pa :
  frame_table s0 = [] →
  ok (palloc s0) →
  (∀ a, ¬ palloc_allocated (palloc s0) a) →
  rtc use_step s0 s →
  palloc_get_page (Z.lor PAL_USER flags) (palloc s) = (None, pa) →
  frame_table s ≠ []
  ∧ ∃ r s', ∀ fuel, (length (frame_table s) < fuel)%nat →
                    frame_alloc fuel up flags s = Done r s'.
Proof.
  intros Hinit Hok0 Hnone Hsteps Hget.
  assert (pages_recorded ok s0) as Hrec0.
  { split_and!; [done|rewrite Hinit; apply NoDup_nil_2|].
    intros a. rewrite Hinit. split; [by intros ?%Hnone|by intros ?%elem_of_nil]. }
  clear Hinit Hok0 Hnone.
  assert (pages_recorded ok s) as (Hok & Hnd & Hrec).
  { clear Hget. induction Hsteps as [|s1 s2 s3 Hstep _ IH]; [done|].
    apply IH. by eapply use_step_recorded. }
  destruct (tight_get_none ok tight _ _ _ Hok Hget) as (_ & _ & a & Ha).
  assert (frame_table s ≠ []) as Hne.
  { intros Hnil. apply Hrec in Ha. rewrite Hnil in Ha. by apply elem_of_nil in Ha. }
  split; [done|].
  set (s1 := Build_vm (frame_table s) (ptes s) (pages s) (swap s) pa (cur_pagedir s)).
  destruct (scan_from_head (ptes s1) (frame_table s1)) as [i m] eqn:Hscan.
  destruct (scan_head flags s1 i m Hne Hscan) as (v & Hv & Hev).
  destruct (evict_victim_eq flags i v (with_table (frame_table s1) m s1))
    as (pgs & sw & Hvic).
  destruct (palloc_get_page (Z.lor PAL_USER flags) (palloc_free_page (addr v) pa))
    as [[b|] pb] eqn:Hretry.
  - eexists _, _. intros fuel Hfuel. unfold frame_alloc. rewrite Hget.
    fold s1. rewrite (Hev fuel Hfuel). unfold reclaim. rewrite Hvic. simpl.
    rewrite Hretry. simpl. reflexivity.
  - eexists _, _. intros fuel Hfuel. unfold frame_alloc. rewrite Hget.
    fold s1. rewrite (Hev fuel Hfuel). unfold reclaim. rewrite Hvic. simpl.
    rewrite Hretry. simpl. reflexivity.
Qed.

End Guard.

(** The first-fit pool meets the allocator's contract. *)
Lemma pool_scan_free m : ∀ i, pool_scan m = Some i → m !! i = Some false.
Proof.
  induction m as [|b m IH]; intros i; simpl; [done|].
  destruct b; [|by intros [= <-]].
  destruct (pool_scan m) as [j|]; [|done]. intros [= <-]. by apply IH.
Qed.

Lemma pool_sound : PhysAllocatorSound (list bool).
Proof.
  split; simpl; unfold pool_get, pool_free, pool_allocated.
  - intros fl p a p'. destruct (pool_scan p) as [i|] eqn:Hscan; [|done].
    intros [= <- <-] [_ Hused]. apply pool_scan_free in Hscan.
    rewrite Nat2Z.id in Hused. congruence.
  - intros fl p a p'. destruct (pool_scan p) as [i|] eqn:Hscan; [|done].
    intros [= <- <-]. apply pool_scan_free in Hscan. split; [lia|].
    rewrite Nat2Z.id. apply list_lookup_insert_eq. by eapply lookup_lt_Some.
  - intros fl p r p' b. destruct (pool_scan p) as [i|] eqn:Hscan.
    + intros [= <- <-] [Hb Hused]. split; [done|].
      apply pool_scan_free in Hscan.
      rewrite list_lookup_insert_ne; [done|]. intros Heq. rewrite <- Heq in Hused. congruence.
    + by intros [= <- <-].
  - intros a p b Hne [Hb Hused]. split; [done|].
    case_decide; [|done]. rewrite list_lookup_insert_ne; [done|]. lia.
Qed.

Lemma pool_scan_none m : pool_scan m = None → ∀ j b, m !! j = Some b → b = true.
Proof.
  induction m as [|c m IH]; simpl; [done|].
  destruct c; [|done]. destruct (pool_scan m); [done|]. intros _.
  intros [|j] b; simpl; [by intros [= <-]|]. by apply IH.
Qed.

(** A first-fit pool with at least one page keeps exact account. *)
Lemma pool_tight : PhysAllocatorTight pool_ok.
Proof.
  split; simpl; unfold pool_get, pool_free, pool_allocated, pool_ok.
  - intros fl p a p' Hok. destruct (pool_scan p) as [i|] eqn:Hscan; [|done].
    intros [= <- <-]. apply pool_scan_free in Hscan.
    pose proof (lookup_lt_Some _ _ _ Hscan) as Hlt. split_and!.
    + intros Hnil. apply (f_equal length) in Hnil. rewrite length_insert in Hnil.
      simpl in Hnil. lia.
    + intros [_ Hused]. rewrite Nat2Z.id in Hused. congruence.
    + intros b. destruct (decide (Z.to_nat b = i)) as [<-|Hne].
      * rewrite list_lookup_insert_eq by done. split.
        -- intros [Hb _]. left. lia.
        -- intros [->|[Hb Hused]]; [split; [lia|done]|congruence].
      * rewrite list_lookup_insert_ne by done. split; [tauto|].
        intros [->|?]; [|done]. rewrite Nat2Z.id in Hne. done.
  - intros fl p p' Hok. destruct (pool_scan p) as [i|] eqn:Hscan; [done|].
    intros [= <-]. split_and!; [done..|].
    destruct p as [|b p]; [done|]. exists 0. split; [lia|]. simpl.
    by rewrite (pool_scan_none _ Hscan O b eq_refl).
  - intros a p Hok. case_decide as Ha.
    + split.
      * intros Hnil. apply (f_equal length) in Hnil. rewrite length_insert in Hnil.
        destruct p; [done|]. simpl in Hnil. lia.
      * intros b. destruct (decide (b = a)) as [->|Hne].
        -- split; [|tauto]. intros [_ Hused].
           destruct (decide (Z.to_nat a < length p)%nat).
           ++ rewrite list_lookup_insert_eq in Hused by done. done.
           ++ rewrite list_insert_ge in Hused by lia.
              apply lookup_lt_Some in Hused. lia.
        -- split.
           ++ intros [Hb Hused]. rewrite list_lookup_insert_ne in Hused by lia. done.
           ++ intros [_ [Hb Hused]]. rewrite list_lookup_insert_ne by lia. done.
    + split; [done|]. intros b. split; [|tauto]. intros [Hb Hused].
      split; [lia|done].
Qed.

(** C1 (the claim as stated fails): two evictions in a row on [clock_vm].
    The first takes the second record in both readings and would leave the
    specification's cursor on the record after it. The second call of the
    code starts again at the first record, whose bit the first call
    cleared, and takes it; a scan resumed at the cursor takes the last
    record instead. *)
Lemma evict_cursor_restarts :
  ∃ s1 s2 c2,
    frame_evict 4 0 clock_vm = Done (Some 1) s1
    ∧ spec_frame_evict 4 0 (clock_vm, O) = Done (Some 1) (s1, 1%nat)
    ∧ frame_evict 4 0 s1 = Done (Some 0) s2
    ∧ spec_frame_evict 4 0 (s1, 1%nat) = Done (Some 3) c2
    ∧ frame_table s1 = [fr1; fr3; fr4]
    ∧ frame_table s2 = [fr3; fr4]
    ∧ frame_table c2.1 = [fr1; fr3].
Proof.
  do 3 eexists. split_and!; [vm_compute; reflexivity..].
Qed.

(** The scenario of the specification on [clock_vm]: the first record is
    given its second chance, the second is the victim; it is dirty, so its
    page goes to swap slot 0 and its page metadata is invalidated. *)
Example evict_writes_dirty_victim :
  ∃ s', frame_evict 2 0 clock_vm = Done (Some 1) s'
        ∧ frame_table s' = [fr1; fr3; fr4]
        ∧ frame_accessed (ptes s') fr1 = false
        ∧ swap s' = [1]
        ∧ pages s' !! 200 = Some (Build_page false 0).
Proof. eexists. split_and!; vm_compute; reflexivity. Qed.

Lemma evict_scans_from_head_witness :
  frame_table clock_vm ≠ []
  ∧ frame_evict 5 0 clock_vm
    = reclaim 0 1 fr2
        (with_table [fr1; fr2; fr3; fr4]
           (pagedir_set_accessed (ptes clock_vm) 1 100 false) clock_vm).
Proof.
  assert (frame_table clock_vm ≠ []) as Hne by done.
  split; [done|].
  destruct (evict_scans_from_head 0 clock_vm Hne) as [(v & Hv & Hev) _].
  vm_compute in Hv. injection Hv as <-.
  rewrite (Hev 5%nat ltac:(simpl; lia)). reflexivity.
Defined.



(** C3 (the claim as stated fails): on the table before its first
    allocation, with a user pool that has no page, the allocator reports
    exhaustion and [frame_alloc] enters the eviction operation with an empty
    live set. *)
Lemma alloc_unguarded_on_empty_table :
  frame_table no_pool_vm = []
  ∧ palloc_get_page (Z.lor PAL_USER 0) (palloc no_pool_vm) = (None, [])
  ∧ ∀ fuel, frame_alloc (S fuel) 100 0 no_pool_vm = Undefined.
Proof.
  split_and!; [reflexivity..|].
  intros fuel. by apply (alloc_scans_empty_table fuel 100 0 no_pool_vm []).
Qed.

Lemma alloc_evicts_nonempty_table_witness :
  ∃ s : vm (list bool),
    rtc use_step fresh_vm s
    ∧ palloc_get_page (Z.lor PAL_USER 0) (palloc s) = (None, [true; true])
    ∧ frame_table s ≠ []
    ∧ ∃ r s', ∀ fuel, (length (frame_table s) < fuel)%nat →
                      frame_alloc fuel 300 0 s = Done r s'.
Proof.
  assert (∃ s : vm (list bool),
            rtc use_step fresh_vm s
            ∧ palloc_get_page (Z.lor PAL_USER 0) (palloc s) = (None, [true; true]))
    as (s & Hsteps & Hget).
  { eexists. split.
    - eapply rtc_l; [eapply (use_alloc 1 100 0); reflexivity|].
      eapply rtc_l; [eapply (use_alloc 1 200 0); reflexivity|].
      apply rtc_refl.
    - reflexivity. }
  destruct (alloc_evicts_nonempty_table pool_ok pool_tight fresh_vm s 300 0 [true; true])
    as [Hne Hreturns].
  - reflexivity.
  - unfold pool_ok. done.
  - intros a [_ Ha]. change (palloc fresh_vm) with [false; false] in Ha.
    destruct (Z.to_nat a) as [|[|n]]; cbv in Ha; discriminate.
  - exact Hsteps.
  - exact Hget.
  - exists s. split_and!; done.
Defined.

Lemma frame_exclusivity_witness :
  ∃ s : vm (list bool),
    rtc step fresh_vm s
    ∧ length (frame_table s) = 2%nat
    ∧ NoDup (addr <$> frame_table s).
Proof.
  assert (∃ s : vm (list bool), rtc step fresh_vm s ∧ length (frame_table s) = 2%nat)
    as (s & Hsteps & Hlen).
  { eexists. split.
    - eapply rtc_l; [eapply (step_alloc 3 100 0); reflexivity|].
      eapply rtc_l; [eapply (step_alloc 3 200 0); reflexivity|].
      eapply rtc_l; [eapply (step_alloc 3 300 0); reflexivity|].
      apply rtc_refl.
    - reflexivity. }
  exists s. split_and!; [done..|].
  exact (frame_exclusivity pool_sound fresh_vm s eq_refl Hsteps).
Defined.

End FrameFacts.

(* ===================================================================== *)
(** * Properties of the namespace operations *)
(* ===================================================================== *)
Module FilesysFacts.
Import Filesys.

(** ** Reference counting *)

Lemma inode_open_fields sector (s : fs) :
  (inode_open sector s).1 = Some sector
  ∧ disk (inode_open sector s).2 = disk s
  ∧ free_map (inode_open sector s).2 = free_map s
  ∧ disk_size (inode_open sector s).2 = disk_size s
  ∧ cwd (inode_open sector s).2 = cwd s.
Proof. unfold inode_open. by destruct (inodes s !! sector). Qed.

Lemma inode_open_count sector (s : fs) :
  open_count (inode_open sector s).2 sector = open_count s sector + 1.
Proof.
  unfold inode_open, open_count.
  destruct (inodes s !! sector) as [i|]; simpl; by rewrite lookup_insert_eq.
Qed.

Lemma inode_open_is_Some sector t (s : fs) :
  is_Some (inodes s !! t) → is_Some (inodes (inode_open sector s).2 !! t).
Proof.
  unfold inode_open. destruct (inodes s !! sector) as [i|]; simpl; intros Ht;
    (destruct (decide (sector = t)) as [->|Hne];
     [rewrite lookup_insert_eq; eauto | by rewrite lookup_insert_ne]).
Qed.

Lemma inode_open_self sector (s : fs) :
  is_Some (inodes (inode_open sector s).2 !! sector).
Proof.
  unfold inode_open. destruct (inodes s !! sector) as [i|]; simpl;
    rewrite lookup_insert_eq; eauto.
Qed.

Lemma inode_open_wf sector (s : fs) : inodes_wf s → inodes_wf (inode_open sector s).2.
Proof.
  intros Hwf t i. unfold inode_open.
  destruct (inodes s !! sector) as [j|] eqn:Hj; simpl;
    (destruct (decide (sector = t)) as [->|Hne];
     [rewrite lookup_insert_eq | rewrite lookup_insert_ne by done; apply Hwf]).
  - intros [= <-]. simpl. specialize (Hwf _ _ Hj). lia.
  - by intros [= <-].
Qed.

(** Closing the reference that an open has just taken restores the state. *)
Lemma inode_close_open sector (s : fs) :
  inodes_wf s → inode_close (Some sector) (inode_open sector s).2 = Some s.
Proof.
  intros Hwf. unfold inode_open, inode_close.
  destruct (inodes s !! sector) as [i|] eqn:Hi; simpl; rewrite lookup_insert_eq; simpl.
  - specialize (Hwf _ _ Hi). rewrite decide_False by lia.
    unfold set_inodes. simpl. rewrite insert_insert_eq.
    replace (open_cnt i + 1 - 1) with (open_cnt i) by lia.
    rewrite insert_id; [by destruct s|]. by destruct i.
  - unfold set_inodes. simpl. rewrite delete_insert_eq.
    rewrite delete_id by done. by destruct s.
Qed.

Lemma inode_close_is_Some sector (s : fs) :
  is_Some (inodes s !! sector) → is_Some (inode_close (Some sector) s).
Proof.
  intros [i Hi]. unfold inode_close. rewrite Hi. simpl. case_decide; eauto.
Qed.

#[local] Arguments inode_open : simpl never.
#[local] Arguments inode_close : simpl never.
#[local] Arguments free_map_allocate : simpl never.
#[local] Arguments inode_create : simpl never.
#[local] Arguments dir_create : simpl never.
#[local] Arguments dir_add : simpl never.

Section Namespace.
Variable NAME_MAX : nat.
Variable dir_path_and_name : string → option (option string * string).
Variable dir_resolve : fs → string → option Z.

Local Abbreviation resolve_parent := (resolve_parent dir_resolve).
Local Abbreviation filesys_create := (filesys_create NAME_MAX dir_path_and_name dir_resolve).
Local Abbreviation filesys_open := (filesys_open dir_path_and_name dir_resolve).
Local Abbreviation filesys_remove := (filesys_remove dir_path_and_name dir_resolve).

(** Resolving the parent takes exactly one reference on the directory. *)
Lemma resolve_parent_open path (s : fs) d s1 :
  resolve_parent path s = Some (Some d, s1) → s1 = (inode_open d s).2.
Proof.
  destruct path as [p|]; simpl.
  - unfold dir_parse. destruct (dir_resolve s p) as [sector|]; [|done].
    pose proof (inode_open_fields sector s) as [Hp _].
    destruct (inode_open sector s) as [q s2] eqn:Hopen. simpl in *. subst q.
    unfold dir_open. intros [= <- <-]. by rewrite Hopen.
  - unfold dir_reopen, dir_get_inode, inode_reopen, inode_open.
    destruct (cwd s) as [c|]; simpl; [|done].
    destruct (inodes s !! c) as [i|] eqn:Hi; simpl; [|done].
    unfold dir_open. intros [= <- <-]. by rewrite Hi.
Qed.

(** C10: when the path resolves and the leaf name is empty, the open
    operation returns a handle on the resolved directory's own inode and
    leaves the state as path resolution produced it: the reference taken
    during resolution is never closed, and the directory's open count is one
    greater than before the call. *)
Theorem open_dir_keeps_reference name path (s : fs) d s1 :
  dir_path_and_name name = Some (path, ""%string) →
  resolve_parent path s = Some (Some d, s1) →
  filesys_open name s = Some (Some d, s1)
  ∧ open_count s1 d = open_count s d + 1.
Proof.
  intros Hsplit Hres. split.
  - unfold Filesys.filesys_open. rewrite Hsplit, Hres. simpl. done.
  - apply resolve_parent_open in Hres as ->. apply inode_open_count.
Qed.

(** C4 (the code at the failing input): when the leaf name is empty (the
    name denotes the root, or any resolved directory itself), the remove
    operation returns failure straight after resolution, without closing the
    parent directory it has opened: the directory's open count stays one
    greater than before the call. *)
Theorem remove_root_keeps_parent_open name path (s : fs) d s1 :
  dir_path_and_name name = Some (path, ""%string) →
  resolve_parent path s = Some (Some d, s1) →
  filesys_remove (Some name) s = Some (false, s1)
  ∧ open_count s1 d = open_count s d + 1.
Proof.
  intros Hsplit Hres. split.
  - unfold Filesys.filesys_remove. rewrite Hsplit, Hres. simpl. done.
  - apply resolve_parent_open in Hres as ->. apply inode_open_count.
Qed.

(** C8 (the code at the failing input): when the parent path resolves and
    the leaf is absent from the directory, the remove operation ignores the
    result of the lookup and hands the null inode to [inode_is_dir]: the
    call has no defined result. *)
Theorem remove_absent_leaf_undefined name path leaf (s : fs) d s1 :
  dir_path_and_name name = Some (path, leaf) →
  leaf ≠ ""%string →
  resolve_parent path s = Some (Some d, s1) →
  lookup_entry leaf (dir_entries s1 d) = None →
  filesys_remove (Some name) s = None.
Proof.
  intros Hsplit Hleaf Hres Habsent.
  unfold Filesys.filesys_remove. rewrite Hsplit, Hres. simpl.
  rewrite decide_False by done. rewrite Habsent. simpl.
  destruct (cwd s1) as [c|]; simpl; [|done].
  by destruct (decide (None = Some c)).
Qed.

(** ** Creating a name that exists *)

Lemma dir_entries_disk (s s' : fs) d : disk s' = disk s → dir_entries s' d = dir_entries s d.
Proof. unfold dir_entries. by intros ->. Qed.

Lemma create_existing name path leaf sz isdir (s : fs) d s1 t :
  dir_path_and_name name = Some (path, leaf) →
  resolve_parent path s = Some (Some d, s1) →
  inodes_wf s →
  lookup_entry leaf (dir_entries s d) = Some t →
  filesys_create name sz isdir s = Some (false, s).
Proof.
  intros Hsplit Hres Hwf Hpresent.
  unfold Filesys.filesys_create. rewrite Hsplit, Hres. simpl.
  apply resolve_parent_open in Hres as ->.
  pose proof (inode_open_fields d s) as (_ & Hdisk & _).
  rewrite (dir_entries_disk _ _ _ Hdisk), Hpresent.
  pose proof (inode_open_fields t (inode_open d s).2) as (Hp & _).
  pose proof (inode_close_open t (inode_open d s).2 (inode_open_wf _ _ Hwf)) as Hclose.
  destruct (inode_open t (inode_open d s).2) as [q s2]. simpl in Hp, Hclose. subst q.
  simpl. rewrite Hclose. simpl. by rewrite inode_close_open.
Qed.

Lemma open_existing name path leaf (s : fs) d s1 t :
  dir_path_and_name name = Some (path, leaf) →
  resolve_parent path s = Some (Some d, s1) →
  lookup_entry leaf (dir_entries s d) = Some t →
  leaf ≠ ""%string →
  ∃ s', filesys_open name s = Some (Some t, s').
Proof.
  intros Hsplit Hres Hpresent Hleaf.
  unfold Filesys.filesys_open. rewrite Hsplit, Hres. simpl.
  rewrite decide_False by done.
  apply resolve_parent_open in Hres as ->.
  pose proof (inode_open_fields d s) as (_ & Hdisk & _).
  rewrite (dir_entries_disk _ _ _ Hdisk), Hpresent.
  pose proof (inode_open_fields t (inode_open d s).2) as (Hp & _).
  pose proof (inode_open_is_Some t d (inode_open d s).2 (inode_open_self d s)) as Hd.
  destruct (inode_open t (inode_open d s).2) as [q s2]. simpl in Hp, Hd. subst q.
  destruct (inode_close_is_Some d s2 Hd) as [s3 Hs3].
  exists s3. simpl. by rewrite Hs3.
Qed.

Lemma inode_close_fields p (s s' : fs) :
  inode_close p s = Some s' → disk s' = disk s ∧ cwd s' = cwd s ∧ disk_size s' = disk_size s.
Proof.
  unfold inode_close. destruct p as [sector|]; [|by intros [= <-]].
  destruct (inodes s !! sector) as [i|]; simpl; [|done].
  case_decide; [|by intros [= <-]].
  destruct (removed i); [|by intros [= <-]].
  destruct (disk s !! sector); by intros [= <-].
Qed.

Lemma inode_close_wf p (s s' : fs) :
  inodes_wf s → inode_close p s = Some s' → inodes_wf s'.
Proof.
  intros Hwf. unfold inode_close. destruct p as [sector|]; [|by intros [= <-]].
  destruct (inodes s !! sector) as [i|] eqn:Hi; simpl; [|done].
  assert (∀ m, (∀ t j, m !! t = Some j → 0 < open_cnt j) →
               ∀ s0, inodes s0 = m → inodes_wf s0) as Hm.
  { intros m Hpos s0 <-. exact Hpos. }
  case_decide as Hz.
  - assert (inodes_wf (set_inodes (delete sector (inodes s)) s)) as Hdel.
    { intros t j. simpl. intros [_ Hj]%lookup_delete_Some. by eapply Hwf. }
    destruct (removed i); [|by intros [= <-]].
    destruct (disk s !! sector); intros [= <-]; exact Hdel.
  - intros [= <-]. intros t j. simpl.
    destruct (decide (sector = t)) as [->|Hne].
    + rewrite lookup_insert_eq. intros [= <-]. simpl. specialize (Hwf _ _ Hi). lia.
    + rewrite lookup_insert_ne by done. apply Hwf.
Qed.

Lemma free_map_allocate_fields cnt (s : fs) r s' :
  free_map_allocate cnt s = (r, s') →
  disk s' = disk s ∧ inodes s' = inodes s ∧ cwd s' = cwd s
  ∧ free_map s ⊆ free_map s'
  ∧ ∀ sector, r = Some sector → 0 < cnt → sector ∈ free_map s'.
Proof.
  unfold free_map_allocate. destruct (list_find _ _) as [[k st]|].
  - intros [= <- <-]. simpl. split_and!; [done..|set_solver|].
    intros sector [= <-] Hcnt. apply elem_of_union_r, elem_of_list_to_set, elem_of_seqZ. lia.
  - intros [= <- <-]. split_and!; [done..|]. done.
Qed.

Lemma inode_create_fields sector len isdir (s : fs) ok s' :
  inode_create sector len isdir s = (ok, s') →
  inodes s' = inodes s ∧ cwd s' = cwd s ∧ free_map s ⊆ free_map s'
  ∧ (ok = true → ∃ st, disk s' = <[sector := Build_inode_disk isdir len st []]> (disk s)).
Proof.
  unfold inode_create.
  destruct (free_map_allocate _ s) as [[st|] s1] eqn:Halloc;
    apply free_map_allocate_fields in Halloc as (Hd & Hi & Hc & Hsub & _);
    intros [= <- <-]; simpl; split_and!; try done.
  intros _. exists st. by rewrite Hd.
Qed.

Lemma lookup_entry_snoc name es sector :
  lookup_entry name es = None → lookup_entry name (es ++ [(name, sector)]) = Some sector.
Proof.
  induction es as [|[n t] es IH]; simpl.
  - intros _. by rewrite decide_True.
  - case_decide; [done|]. apply IH.
Qed.

Lemma dir_entries_set d es (s : fs) :
  is_Some (disk s !! d) → dir_entries (set_entries d es s) d = es.
Proof.
  intros [i Hi]. unfold dir_entries, set_entries. simpl.
  rewrite lookup_alter_eq, Hi. done.
Qed.

(** A create that reports success has linked the leaf into the parent. *)
Lemma create_success_links name path leaf sz isdir (s : fs) d s1 s' :
  dir_path_and_name name = Some (path, leaf) →
  resolve_parent path s = Some (Some d, s1) →
  inodes_wf s →
  filesys_create name sz isdir s = Some (true, s') →
  inodes_wf s' ∧ leaf ≠ ""%string ∧ ∃ sector, lookup_entry leaf (dir_entries s' d) = Some sector.
Proof.
  intros Hsplit Hres Hwf.
  unfold Filesys.filesys_create. rewrite Hsplit, Hres. simpl.
  apply resolve_parent_open in Hres as ->.
  assert (inodes_wf (inode_open d s).2) as Hwf1 by by apply inode_open_wf.
  destruct (lookup_entry leaf (dir_entries (inode_open d s).2 d)) as [t|].
  - destruct (inode_open t _) as [q s2]. simpl.
    destruct (inode_close q s2); simpl; [|done].
    destruct (inode_close (Some d) _); simpl; [|done]. by intros [= ? ?].
  - simpl.
    destruct (free_map_allocate 1 _) as [[sector|] s21] eqn:Halloc; simpl.
    2:{ destruct (inode_close (Some d) s21); simpl; [|done]. by intros [= ? ?]. }
    apply free_map_allocate_fields in Halloc as (_ & Hi21 & _).
    destruct (if isdir then _ else _) as [ok s22] eqn:Hinit.
    assert (inodes s22 = inodes s21) as Hi22.
    { destruct isdir; unfold dir_create in Hinit; by apply inode_create_fields in Hinit as (? & _). }
    unfold dir_add. simpl. case_decide as Hname; simpl.
    { rewrite andb_false_r. destruct (inode_close (Some d) s22); simpl; [|done]. by intros [= ? ?]. }
    destruct (lookup_entry leaf (dir_entries s22 d)) eqn:Hlk; simpl.
    { rewrite andb_false_r. destruct (inode_close (Some d) s22); simpl; [|done]. by intros [= ? ?]. }
    destruct (disk s22 !! d) as [di|] eqn:Hdi; simpl.
    2:{ rewrite andb_false_r. destruct (inode_close (Some d) s22); simpl; [|done]. by intros [= ? ?]. }
    destruct (inode_close (Some d) _) as [s4|] eqn:Hclose; simpl; [|done].
    intros [= Hok <-]. split_and!.
    + eapply inode_close_wf; [|exact Hclose].
      intros t j. simpl. rewrite Hi22, Hi21. apply Hwf1.
    + intros ->. apply Hname. by left.
    + exists sector. apply inode_close_fields in Hclose as (Hdisk & _).
      rewrite (dir_entries_disk _ _ _ Hdisk), dir_entries_set by eauto.
      by apply lookup_entry_snoc.
Qed.

(** C7: when the leaf name is already present in the resolved parent
    directory, create returns failure, and the handle found by the lookup and
    the parent reference are closed again: the whole state, the existing
    object included, is as before the call, and open still reaches the
    object. In particular, once a create has succeeded, a second create of
    the same name in the same parent fails and leaves the first object
    reachable. *)
Theorem create_existing_fails name path leaf sz isdir (s : fs) d s1 :
  dir_path_and_name name = Some (path, leaf) →
  resolve_parent path s = Some (Some d, s1) →
  inodes_wf s →
  (∀ t, lookup_entry leaf (dir_entries s d) = Some t →
        filesys_create name sz isdir s = Some (false, s)
        ∧ (leaf ≠ ""%string → ∃ s', filesys_open name s = Some (Some t, s')))
  ∧ (∀ sz' isdir' s2 s3,
        filesys_create name sz isdir s = Some (true, s2) →
        resolve_parent path s2 = Some (Some d, s3) →
        filesys_create name sz' isdir' s2 = Some (false, s2)
        ∧ ∃ t s', filesys_open name s2 = Some (Some t, s')).
Proof.
  intros Hsplit Hres Hwf. split.
  - intros t Hpresent. split.
    + by eapply create_existing.
    + intros Hleaf. by eapply open_existing.
  - intros sz' isdir' s2 s3 Hfirst Hres2.
    destruct (create_success_links _ _ _ _ _ _ _ _ _ Hsplit Hres Hwf Hfirst)
      as (Hwf2 & Hleaf & sector & Hlinked).
    split.
    + by eapply create_existing.
    + exists sector. by eapply open_existing.
Qed.

(** ** Partial failure of create *)

Lemma dir_add_false d name sector (s s' : fs) :
  dir_add NAME_MAX d name sector s = Some (false, s') → s' = s.
Proof.
  unfold dir_add. destruct d as [dsec|]; simpl; [|done].
  case_decide; [by intros [= <-]|].
  destruct (lookup_entry _ _); [by intros [= <-]|].
  destruct (disk s !! dsec); [done|by intros [= <-]].
Qed.

Lemma inode_close_borrowed d (s s3 : fs) :
  inodes_wf s → inodes s3 = inodes (inode_open d s).2 →
  ∃ s', inode_close (Some d) s3 = Some s' ∧ disk s' = disk s3 ∧ free_map s' = free_map s3.
Proof.
  intros Hwf Hi. unfold inode_close. rewrite Hi. unfold inode_open.
  destruct (inodes s !! d) as [i|] eqn:Hd; simpl; rewrite lookup_insert_eq; simpl.
  - specialize (Hwf _ _ Hd). rewrite decide_False by lia. by eexists.
  - by eexists.
Qed.

(** C6: when the path resolves, the leaf is fresh, one sector is allocated
    and the object is initialised in it, but linking the leaf into the parent
    fails, create returns failure and rolls nothing back: in the final
    state the sector is still marked in use in the free map and still holds
    the object that was created in it; free map and disk are as the
    initialisation left them. *)
Theorem create_link_failure_leaks name path leaf sz (isdir : bool) (s : fs)
    d s1 sector s2 s3 s4 :
  dir_path_and_name name = Some (path, leaf) →
  resolve_parent path s = Some (Some d, s1) →
  inodes_wf s →
  lookup_entry leaf (dir_entries s1 d) = None →
  free_map_allocate 1 s1 = (Some sector, s2) →
  (if isdir then dir_create sector 0 s2 else inode_create sector sz false s2) = (true, s3) →
  dir_add NAME_MAX (Some d) leaf sector s3 = Some (false, s4) →
  ∃ s', filesys_create name sz isdir s = Some (false, s')
        ∧ sector ∈ free_map s'
        ∧ (∃ st, disk s' !! sector
                 = Some (Build_inode_disk isdir (if isdir then 0 else sz) st []))
        ∧ free_map s' = free_map s3
        ∧ disk s' = disk s3.
Proof.
  intros Hsplit Hres Hwf Hfresh Halloc Hinit Hlink.
  pose proof (dir_add_false _ _ _ _ _ Hlink) as ->.
  unfold Filesys.filesys_create. rewrite Hsplit, Hres. simpl.
  rewrite Hfresh. simpl. rewrite Halloc, Hinit, Hlink. simpl.
  apply resolve_parent_open in Hres as ->.
  apply free_map_allocate_fields in Halloc as (_ & Hi2 & _ & _ & Hused).
  assert (inodes s3 = inodes s2 ∧ free_map s2 ⊆ free_map s3
          ∧ ∃ st, disk s3 !! sector
                  = Some (Build_inode_disk isdir (if isdir then 0 else sz) st []))
    as (Hi3 & Hsub & st & Hobj).
  { destruct isdir; unfold dir_create in Hinit;
      apply inode_create_fields in Hinit as (? & _ & ? & Hdisk);
      destruct (Hdisk eq_refl) as [st ->]; split_and!; try done;
      exists st; by rewrite lookup_insert_eq. }
  destruct (inode_close_borrowed d s s3 Hwf) as (s' & -> & Hdisk' & Hfm').
  { by rewrite Hi3, Hi2. }
  exists s'. simpl. split_and!; [done| | |done..].
  - rewrite Hfm'. apply Hsub, Hused; [done|lia].
  - exists st. by rewrite Hdisk'.
Qed.

End Namespace.

(** ** The operations on the sample states *)

Lemma root_fs_wf : inodes_wf root_fs.
Proof.
  intros sector i. unfold root_fs. simpl.
  by intros [_ <-]%lookup_singleton_Some.
Qed.

(** C5 (the code at the failing input): the empty directory [a] is held
    open by one other context, so with the remover's lookup reference its
    open count is 2. The remove operation closes the directory handle it
    opened on the looked-up inode before it reads the count, reads 1,
    unlinks the entry and closes the inode once more: the call succeeds and
    the inode is freed under its holder. *)
Theorem remove_held_directory :
  open_count busy_fs 2 = 1
  ∧ ∃ s', filesys_remove path_and_name resolve_path (Some "a"%string) busy_fs
          = Some (true, s')
          ∧ dir_entries s' 1 = []
          ∧ inodes s' !! 2 = None
          ∧ elements (free_map s') = [1; 0].
Proof.
  split; [reflexivity|]. eexists. split_and!; vm_compute; reflexivity.
Qed.

(** The same defect when nobody else holds the directory: closing the
    directory handle frees the inode, and the count is read from the freed
    inode. *)
Example remove_lone_directory_undefined :
  filesys_remove path_and_name resolve_path (Some "a"%string) lone_fs = None.
Proof. vm_compute. reflexivity. Qed.

Lemma open_dir_keeps_reference_witness :
  ∃ s1, filesys_open path_and_name resolve_path "/"%string root_fs = Some (Some 1, s1)
        ∧ open_count s1 1 = open_count root_fs 1 + 1.
Proof.
  eexists.
  apply (open_dir_keeps_reference path_and_name resolve_path "/"%string
           (Some "/"%string) root_fs 1); reflexivity.
Defined.

Lemma remove_root_keeps_parent_open_witness :
  ∃ s1, filesys_remove path_and_name resolve_path (Some "/"%string) root_fs
        = Some (false, s1)
        ∧ open_count s1 1 = open_count root_fs 1 + 1.
Proof.
  eexists.
  apply (remove_root_keeps_parent_open path_and_name resolve_path "/"%string
           (Some "/"%string) root_fs 1); reflexivity.
Defined.

Lemma remove_absent_leaf_undefined_witness :
  filesys_remove path_and_name resolve_path (Some "nosuch"%string) root_fs = None.
Proof.
  eapply (remove_absent_leaf_undefined path_and_name resolve_path "nosuch"%string
            None "nosuch"%string root_fs 1); [reflexivity|done|reflexivity|reflexivity].
Defined.

Lemma create_existing_fails_witness :
  filesys_create 14 path_and_name resolve_path "a"%string 0 true busy_fs
  = Some (false, busy_fs)
  ∧ ∃ s', filesys_open path_and_name resolve_path "a"%string busy_fs = Some (Some 2, s').
Proof.
  assert (inodes_wf busy_fs) as Hwf.
  { intros sector i. unfold busy_fs. simpl.
    intros [[_ <-]|[_ [_ <-]%lookup_singleton_Some]]%lookup_insert_Some; simpl; lia. }
  destruct (create_existing_fails 14 path_and_name resolve_path "a"%string None
              "a"%string 0 true busy_fs 1 _ eq_refl eq_refl Hwf) as [Hpresent _].
  destruct (Hpresent 2 eq_refl) as [Hcreate Hopen].
  split; [exact Hcreate|]. by apply Hopen.
Defined.

Lemma create_link_failure_leaks_witness :
  ∃ s', filesys_create 14 path_and_name resolve_path
          "/a-very-long-file-name"%string 100 false root_fs = Some (false, s')
        ∧ 2 ∈ free_map s'
        ∧ ∃ st, disk s' !! 2 = Some (Build_inode_disk false 100 st []).
Proof.
  destruct (create_link_failure_leaks 14 path_and_name resolve_path
              "/a-very-long-file-name"%string (Some "/"%string)
              "a-very-long-file-name"%string 100 false root_fs 1 _ 2 _ _ _
              eq_refl eq_refl root_fs_wf eq_refl eq_refl eq_refl eq_refl)
    as (s' & Hcreate & Hused & Hobj & _).
  exists s'. split_and!; done.
Defined.

End FilesysFacts.

(* ===================================================================== *)
(** * Further properties of the frame table *)
(* ===================================================================== *)
Module FrameMore.
Import Frame FrameFacts Samples.

Lemma dirty_set_accessed pts pd up b pd' up' :
  pagedir_is_dirty (pagedir_set_accessed pts pd up b) pd' up'
  = pagedir_is_dirty pts pd' up'.
Proof.
  unfold pagedir_is_dirty, pagedir_set_accessed.
  destruct (decide ((pd, up) = (pd', up'))) as [<-|Hne].
  - rewrite lookup_alter_eq. by destruct (pts !! (pd, up)).
  - by rewrite lookup_alter_ne.
Qed.

Lemma dirty_clear_page pts pd up pd' up' :
  pagedir_is_dirty (pagedir_clear_page pts pd up) pd' up'
  = pagedir_is_dirty pts pd' up'.
Proof.
  unfold pagedir_is_dirty, pagedir_clear_page.
  destruct (decide ((pd, up) = (pd', up'))) as [<-|Hne].
  - rewrite lookup_alter_eq. by destruct (pts !! (pd, up)).
  - by rewrite lookup_alter_ne.
Qed.

Lemma accessed_clear_page pts pd up pd' up' :
  pagedir_is_accessed (pagedir_clear_page pts pd up) pd' up'
  = pagedir_is_accessed pts pd' up'.
Proof.
  unfold pagedir_is_accessed, pagedir_clear_page.
  destruct (decide ((pd, up) = (pd', up'))) as [<-|Hne].
  - rewrite lookup_alter_eq. by destruct (pts !! (pd, up)).
  - by rewrite lookup_alter_ne.
Qed.

Lemma dirty_clear_all l pts pd up :
  pagedir_is_dirty (clear_accessed_all l pts) pd up = pagedir_is_dirty pts pd up.
Proof.
  revert pts. induction l as [|f l IH]; intros pts; simpl; [done|].
  by rewrite IH, dirty_set_accessed.
Qed.

Section Table.
Context {P : Type} `{PhysAllocator P}.

(** X1: [frame_free] of an address that no record holds, the null pointer
    included, changes nothing. *)
Theorem frame_free_absent page0 (s : vm P) :
  (∀ f, f ∈ frame_table s → Some (addr f) ≠ page0) →
  frame_free page0 s = s.
Proof.
  intros Habsent. unfold frame_free.
  replace (list_find _ (frame_table s)) with (@None (nat * frame)); [done|].
  symmetry. apply list_find_None, Forall_forall. exact Habsent.
Qed.

(** X2: [frame_free] unlinks the first record that holds the address, and
    only that one, returns its page to the allocator and leaves the other
    records, their order, the page tables, the page metadata and the swap
    store as they were. *)
Theorem frame_free_present a (s : vm P) l1 f l2 :
  frame_table s = l1 ++ f :: l2 →
  addr f = a →
  (∀ g, g ∈ l1 → addr g ≠ a) →
  frame_free (Some a) s
  = Build_vm (l1 ++ l2) (ptes s) (pages s) (swap s)
             (palloc_free_page a (palloc s)) (cur_pagedir s).
Proof.
  intros Htbl Hf Hbefore. unfold frame_free. rewrite Htbl.
  assert (list_find (λ g, Some (addr g) = Some a) (l1 ++ f :: l2)
          = Some (length l1, f)) as ->.
  { apply list_find_Some. split_and!.
    - by apply list_lookup_middle.
    - by rewrite Hf.
    - intros j g Hg Hj [= Heq]. rewrite lookup_app_l in Hg by done.
      eapply Hbefore; [|done]. by eapply list_elem_of_lookup_2. }
  by rewrite delete_middle, Hf.
Qed.

(** X5: [frame_evict] returns exactly on a non-empty frame table: there it
    needs at most one inspection more than the table has records and leaves
    the table one record shorter; on the empty table it is undefined
    whatever the step budget. *)
Theorem frame_evict_total flags (s : vm P) :
  (frame_table s = [] → ∀ fuel, frame_evict (S fuel) flags s = Undefined)
  ∧ (frame_table s ≠ [] →
     ∃ r s', (∀ fuel, (length (frame_table s) < fuel)%nat →
                      frame_evict fuel flags s = Done r s')
             ∧ S (length (frame_table s')) = length (frame_table s)).
Proof.
  split.
  - intros Hempty fuel. unfold frame_evict. simpl. by rewrite Hempty.
  - intros Hne.
    destruct (scan_from_head (ptes s) (frame_table s)) as [i m] eqn:Hscan.
    destruct (scan_head flags s i m Hne Hscan) as (v & Hv & Hev).
    destruct (evict_victim_eq flags i v (with_table (frame_table s) m s))
      as (pgs & sw & Hvic).
    eexists _, _. split.
    + intros fuel Hfuel. rewrite (Hev fuel Hfuel). unfold reclaim.
      rewrite Hvic. reflexivity.
    + simpl. rewrite length_delete by eauto.
      apply lookup_lt_Some in Hv. lia.
Qed.

Lemma first_clear_all_accessed l : ∀ pts,
  NoDup (frame_key <$> l) →
  (∀ f, f ∈ l → frame_accessed pts f = true) →
  first_clear pts l = None.
Proof.
  induction l as [|g l IH]; intros pts Hnd Hall; [done|].
  simpl. rewrite (Hall g) by by left.
  rewrite fmap_cons in Hnd. apply NoDup_cons in Hnd as [Hg Hnd].
  rewrite IH; [done..|].
  intros f Hf. unfold frame_accessed. rewrite set_accessed_other.
  - apply Hall. by right.
  - intros Heq. apply Hg. change (pagedir g, upage g) with (frame_key g) in Heq.
    change (pagedir f, upage f) with (frame_key f) in Heq.
    rewrite Heq. by apply list_elem_of_fmap_2.
Qed.

(** X6: when every record maps its own page and every accessed bit is set,
    the scan gives each record its second chance, wraps and takes the head:
    the eviction needs exactly one inspection more than the table has
    records (one less runs out), and afterwards no record of the old table
    has its accessed bit set. *)
Theorem evict_all_accessed flags (s : vm P) f0 tl :
  frame_table s = f0 :: tl →
  NoDup (frame_key <$> frame_table s) →
  (∀ f, f ∈ frame_table s → frame_accessed (ptes s) f = true) →
  frame_evict (length (frame_table s)) flags s = OutOfFuel
  ∧ frame_evict (S (length (frame_table s))) flags s
    = reclaim flags O f0
        (with_table (frame_table s) (clear_accessed_all (frame_table s) (ptes s)) s)
  ∧ ∀ r s', frame_evict (S (length (frame_table s))) flags s = Done r s' →
            frame_table s' = tl
            ∧ ∀ f, f ∈ frame_table s → frame_accessed (ptes s') f = false.
Proof.
  intros Htbl Hnd Hall.
  pose proof (first_clear_all_accessed _ _ Hnd Hall) as Hfc.
  assert (frame_table s ≠ []) as Hne by (rewrite Htbl; done).
  assert (∀ fuel, evict_scan (length (frame_table s) + fuel) flags O s
                  = evict_scan fuel flags O
                      (with_table (frame_table s)
                         (clear_accessed_all (frame_table s) (ptes s)) s)) as Hlap.
  { intros fuel.
    pose proof (scan_lap flags s (frame_table s) [] (ptes s) fuel Hne Hfc) as Hl.
    simpl in Hl. by rewrite with_table_id in Hl. }
  assert (frame_evict (S (length (frame_table s))) flags s
          = reclaim flags O f0
              (with_table (frame_table s)
                 (clear_accessed_all (frame_table s) (ptes s)) s)) as Hev.
  { unfold frame_evict. replace (S (length (frame_table s)))
      with (length (frame_table s) + 1)%nat by lia.
    rewrite Hlap. simpl. rewrite Htbl. simpl.
    assert (frame_accessed (clear_accessed_all (f0 :: tl) (ptes s)) f0 = false) as Hclr
      by (apply clear_all_elem; by left).
    unfold frame_accessed in Hclr. simpl in Hclr. by rewrite Hclr. }
  split_and!.
  - unfold frame_evict. rewrite <- (Nat.add_0_r (length (frame_table s))).
    by rewrite Hlap.
  - done.
  - intros r s'. rewrite Hev. unfold reclaim.
    destruct (evict_victim_eq flags O f0
                (with_table (frame_table s)
                   (clear_accessed_all (frame_table s) (ptes s)) s))
      as (pgs & sw & ->).
    intros [= <- <-]. simpl. split; [by rewrite Htbl|].
    intros f Hf. unfold frame_accessed. rewrite accessed_clear_page.
    by apply clear_all_elem.
Qed.

Lemma evict_scan_bits flags fuel : ∀ e (s : vm P) r s',
  evict_scan fuel flags e s = Done r s' →
  (∀ pd up, pagedir_is_accessed (ptes s') pd up = true →
            pagedir_is_accessed (ptes s) pd up = true)
  ∧ (∀ pd up, pagedir_is_dirty (ptes s') pd up = pagedir_is_dirty (ptes s) pd up).
Proof.
  induction fuel as [|fuel IH]; intros e s r s'; simpl; [done|].
  destruct (frame_table s !! e) as [v|]; [|done].
  destruct (pagedir_is_accessed _ _ _).
  - intros [Hacc Hdirty]%IH. simpl in *. split.
    + intros pd up Hset. by eapply set_accessed_mono, Hacc.
    + intros pd up. by rewrite Hdirty, dirty_set_accessed.
  - destruct (evict_victim_eq flags e v s) as (pgs & sw & ->).
    intros [= <- <-]. simpl. split.
    + intros pd up. by rewrite accessed_clear_page.
    + intros pd up. by rewrite dirty_clear_page.
Qed.

(** X7: an eviction never sets an accessed bit (it only clears bits of the
    records it passes) and never changes a dirty bit, of any page of any
    page directory. *)
Theorem evict_only_clears_accessed fuel flags (s : vm P) r s' :
  frame_evict fuel flags s = Done r s' →
  (∀ pd up, pagedir_is_accessed (ptes s') pd up = true →
            pagedir_is_accessed (ptes s) pd up = true)
  ∧ (∀ pd up, pagedir_is_dirty (ptes s') pd up = pagedir_is_dirty (ptes s) pd up).
Proof. apply evict_scan_bits. Qed.

(** X8: the swap store is written exactly when the victim is dirty. A
    dirty victim's page is appended to the swap store and the metadata of
    its user page becomes invalid with the new slot; for a clean victim the
    swap store and all page metadata stay as they were. *)
Theorem evict_swaps_dirty_victim fuel flags (s : vm P) v r s' :
  frame_table s !! (scan_from_head (ptes s) (frame_table s)).1 = Some v →
  (length (frame_table s) < fuel)%nat →
  frame_evict fuel flags s = Done r s' →
  if pagedir_is_dirty (ptes s) (pagedir v) (upage v)
  then swap s' = swap s ++ [addr v]
       ∧ pages s' = <[upage v := Build_page false (Z.of_nat (length (swap s)))]> (pages s)
  else swap s' = swap s ∧ pages s' = pages s.
Proof.
  intros Hv Hfuel.
  destruct (scan_from_head (ptes s) (frame_table s)) as [i m] eqn:Hscan.
  assert (frame_table s ≠ []) as Hne by (intros Hnil; by rewrite Hnil in Hv).
  destruct (scan_head flags s i m Hne Hscan) as (v' & Hv' & Hev).
  simpl in Hv. rewrite Hv in Hv'. injection Hv' as <-.
  rewrite (Hev fuel Hfuel). unfold reclaim, evict_victim. simpl.
  assert (pagedir_is_dirty m (pagedir v) (upage v)
          = pagedir_is_dirty (ptes s) (pagedir v) (upage v)) as ->.
  { unfold scan_from_head in Hscan.
    destruct (first_clear _ _) as [[i' m']|] eqn:Hfc.
    - injection Hscan as -> ->.
      destruct (first_clear_spec _ _ _ _ Hfc) as (_ & _ & -> & _).
      apply dirty_clear_all.
    - injection Hscan as _ <-. apply dirty_clear_all. }
  destruct (pagedir_is_dirty (ptes s) _ _); simpl;
    destruct (palloc_get_page _ _); by intros [= <- <-].
Qed.

(** X10: the frame table lets two records map the same user page; they
    share one accessed bit. When the head and the second record do and the
    bit is set, the scan clears it at the head and then finds it clear at
    the second record, which is evicted in the same lap although its bit
    was set when the eviction began. *)
Theorem evict_shared_page flags (s : vm P) f g rest :
  frame_table s = f :: g :: rest →
  frame_key f = frame_key g →
  frame_accessed (ptes s) f = true →
  frame_accessed (ptes s) g = true
  ∧ ∀ fuel, (2 ≤ fuel)%nat →
      frame_evict fuel flags s
      = reclaim flags 1 g
          (with_table (frame_table s)
             (pagedir_set_accessed (ptes s) (pagedir f) (upage f) false) s).
Proof.
  intros Htbl Hkey Hacc. injection Hkey as Hpd Hup.
  split; [unfold frame_accessed in *; by rewrite <- Hpd, <- Hup|].
  intros fuel Hfuel.
  pose proof (scan_found flags s (frame_table s) [] (ptes s) 1
                (pagedir_set_accessed (ptes s) (pagedir f) (upage f) false) g fuel) as Hscan.
  simpl in Hscan. rewrite with_table_id in Hscan. apply Hscan; [|by rewrite Htbl|lia].
  rewrite Htbl. simpl. rewrite Hacc. unfold frame_accessed.
  by rewrite <- Hpd, <- Hup, set_accessed_same.
Qed.

End Table.

Section Ownership.
Context {P : Type} `{PhysAllocator P}.
Hypothesis sound : PhysAllocatorSound P.

(** X3: with an allocator that never hands out a page in use, freeing the
    address that [frame_alloc] has just returned (from a pool that had a
    page) undoes the allocation in the frame table: the table is the one
    before the call, and page tables, page metadata and swap store were
    never touched. *)
Theorem frame_alloc_free fuel up flags (s : vm P) a pa :
  table_inv s →
  palloc_get_page (Z.lor PAL_USER flags) (palloc s) = (Some a, pa) →
  ∃ s1, frame_alloc fuel up flags s = Done (Some a) s1
        ∧ frame_table s1 = frame_table s ++ [Build_frame (cur_pagedir s) a up]
        ∧ frame_free (Some a) s1
          = Build_vm (frame_table s) (ptes s) (pages s) (swap s)
                     (palloc_free_page a pa) (cur_pagedir s).
Proof.
  intros [Hnd Hall] Hget. unfold frame_alloc. rewrite Hget.
  eexists. split_and!; [reflexivity..|].
  rewrite (frame_free_present a _ (frame_table s) (Build_frame (cur_pagedir s) a up) []);
    simpl; [by rewrite app_nil_r|done..|].
  intros g Hg Heq. eapply (get_page_fresh P sound); [done|].
  rewrite <- Heq. by apply Hall.
Qed.

(** X4: when the allocator reports exhaustion and the frame table is not
    empty, [frame_alloc] evicts exactly one record [v] and asks the
    allocator once more, after [v]'s page was returned. If that yields a
    page, the new record is appended after the survivors and the table keeps
    its size; if not, [frame_alloc] returns the null pointer and the victim
    stays evicted. *)
Theorem frame_alloc_under_pressure fuel up flags (s : vm P) pa :
  palloc_get_page (Z.lor PAL_USER flags) (palloc s) = (None, pa) →
  frame_table s ≠ [] →
  (length (frame_table s) < fuel)%nat →
  ∃ i v r s1,
    frame_table s !! i = Some v
    ∧ frame_alloc fuel up flags s = Done r s1
    ∧ palloc_get_page (Z.lor PAL_USER flags) (palloc_free_page (addr v) pa)
      = (r, palloc s1)
    ∧ frame_table s1
      = delete i (frame_table s)
        ++ match r with
           | Some a => [Build_frame (cur_pagedir s) a up]
           | None => []
           end.
Proof.
  intros Hget Hne Hfuel. unfold frame_alloc. rewrite Hget.
  set (s0 := Build_vm (frame_table s) (ptes s) (pages s) (swap s) pa (cur_pagedir s)).
  destruct (scan_from_head (ptes s0) (frame_table s0)) as [i m] eqn:Hscan.
  destruct (scan_head flags s0 i m Hne Hscan) as (v & Hv & Hev).
  rewrite (Hev fuel Hfuel). unfold reclaim.
  destruct (evict_victim_eq flags i v (with_table (frame_table s0) m s0))
    as (pgs & sw & ->). simpl.
  destruct (palloc_get_page (Z.lor PAL_USER flags) (palloc_free_page (addr v) pa))
    as [[a|] pa'] eqn:Hretry; simpl.
  - exists i, v, (Some a). eexists. split_and!; [done|reflexivity|done|done].
  - exists i, v, None. eexists. split_and!; [done|reflexivity|done|]. simpl.
    by rewrite app_nil_r.
Qed.

(** X9: starting from an empty frame table, after any sequence of
    allocate, free and evict operations every record's page is held from
    the allocator: a record exists only while its page is allocated. *)
Theorem frame_pages_allocated (s0 s : vm P) :
  frame_table s0 = [] → rtc step s0 s →
  ∀ f, f ∈ frame_table s → palloc_allocated (palloc s) (addr f).
Proof.
  intros Hinit Hsteps.
  assert (table_inv s0) as Hinv0.
  { split; rewrite Hinit; [apply NoDup_nil_2|]. by intros f ?%elem_of_nil. }
  clear Hinit. assert (table_inv s) as [_ Hall]; [|done].
  induction Hsteps as [|s1 s2 s3 Hstep _ IH]; [done|].
  apply IH. by eapply step_inv.
Qed.

End Ownership.

Lemma frame_free_absent_witness : frame_free None clock_vm = clock_vm.
Proof. apply (frame_free_absent None clock_vm). intros f _. done. Defined.

Lemma frame_free_present_witness :
  frame_free (Some 1) clock_vm
  = Build_vm [fr1; fr3; fr4] (ptes clock_vm) ∅ [] [true; false; true; true] 1.
Proof.
  rewrite (frame_free_present 1 clock_vm [fr1] fr2 [fr3; fr4]);
    [reflexivity|reflexivity|reflexivity|].
  intros g ->%list_elem_of_singleton. done.
Defined.

Lemma fresh_vm_inv : table_inv fresh_vm.
Proof. split; simpl; [apply NoDup_nil_2|]. by intros f ?%elem_of_nil. Qed.

Lemma frame_alloc_free_witness :
  ∃ s1, frame_alloc 1 100 0 fresh_vm = Done (Some 0) s1
        ∧ frame_table s1 = [Build_frame 1 0 100]
        ∧ frame_free (Some 0) s1 = fresh_vm.
Proof.
  destruct (frame_alloc_free pool_sound 1 100 0 fresh_vm 0 [true; false]
              fresh_vm_inv eq_refl) as (s1 & Halloc & Htbl & Hfree).
  exists s1. split_and!; [done..|]. rewrite Hfree. reflexivity.
Defined.

Lemma frame_alloc_under_pressure_witness :
  ∃ i v r s1,
    frame_table clock_vm !! i = Some v
    ∧ frame_alloc 5 500 0 clock_vm = Done r s1
    ∧ length (frame_table s1) = 4%nat.
Proof.
  destruct (frame_alloc_under_pressure 5 500 0 clock_vm [true; true; true; true])
    as (i & v & r & s1 & Hv & Halloc & Hretry & Htbl).
  - reflexivity.
  - done.
  - simpl. lia.
  - exists i, v, r, s1. split_and!; [done..|].
    vm_compute in Halloc. injection Halloc as <- <-. reflexivity.
Defined.

Lemma evict_all_accessed_witness :
  frame_evict 3 0 hot_vm = OutOfFuel
  ∧ frame_evict 4 0 hot_vm
    = reclaim 0 O fr1
        (with_table [fr1; fr2; fr3] (clear_accessed_all [fr1; fr2; fr3] (ptes hot_vm)) hot_vm).
Proof.
  destruct (evict_all_accessed 0 hot_vm fr1 [fr2; fr3]) as (Hshort & Hfull & _).
  - reflexivity.
  - apply (bool_decide_unpack _). vm_compute. exact I.
  - apply Forall_forall. repeat constructor.
  - split; [exact Hshort|exact Hfull].
Defined.

Lemma evict_only_clears_accessed_witness :
  ∃ s', frame_evict 4 0 clock_vm = Done (Some 1) s'
        ∧ (∀ pd up, pagedir_is_accessed (ptes s') pd up = true →
                    pagedir_is_accessed (ptes clock_vm) pd up = true)
        ∧ pagedir_is_dirty (ptes s') 1 200 = true.
Proof.
  assert (∃ s', frame_evict 4 0 clock_vm = Done (Some 1) s') as [s' Hev]
    by (eexists; reflexivity).
  exists s'. split; [exact Hev|].
  destruct (evict_only_clears_accessed 4 0 clock_vm _ _ Hev) as [Hacc Hdirty].
  split; [exact Hacc|]. rewrite Hdirty. reflexivity.
Defined.

Lemma evict_swaps_dirty_victim_witness :
  ∃ s', frame_evict 5 0 clock_vm = Done (Some 1) s'
        ∧ swap s' = [1]
        ∧ pages s' !! 200 = Some (Build_page false 0).
Proof.
  assert (∃ s', frame_evict 5 0 clock_vm = Done (Some 1) s') as [s' Hev]
    by (eexists; reflexivity).
  exists s'. split; [exact Hev|].
  pose proof (evict_swaps_dirty_victim 5 0 clock_vm fr2 _ _ eq_refl
                ltac:(simpl; lia) Hev) as Hswap.
  replace (pagedir_is_dirty (ptes clock_vm) (pagedir fr2) (upage fr2)) with true
    in Hswap by reflexivity.
  destruct Hswap as [-> ->]. split; [reflexivity|]. apply lookup_insert_eq.
Defined.

Lemma frame_pages_allocated_witness :
  ∃ s : vm (list bool),
    rtc step fresh_vm s
    ∧ length (frame_table s) = 2%nat
    ∧ ∀ f, f ∈ frame_table s → palloc_allocated (palloc s) (addr f).
Proof.
  assert (∃ s : vm (list bool), rtc step fresh_vm s ∧ length (frame_table s) = 2%nat)
    as (s & Hsteps & Hlen).
  { eexists. split.
    - eapply rtc_l; [eapply (step_alloc 3 100 0); reflexivity|].
      eapply rtc_l; [eapply (step_alloc 3 200 0); reflexivity|].
      eapply rtc_l; [eapply (step_free (Some 0))|].
      eapply rtc_l; [eapply (step_alloc 3 300 0); reflexivity|].
      apply rtc_refl.
    - reflexivity. }
  exists s. split_and!; [done..|].
  exact (frame_pages_allocated pool_sound fresh_vm s eq_refl Hsteps).
Defined.

Lemma evict_shared_page_witness :
  frame_accessed (ptes alias_vm) (Build_frame 1 1 100) = true
  ∧ frame_evict 2 0 alias_vm
    = reclaim 0 1 (Build_frame 1 1 100)
        (with_table (frame_table alias_vm)
           (pagedir_set_accessed (ptes alias_vm) 1 100 false) alias_vm).
Proof.
  destruct (evict_shared_page 0 alias_vm (Build_frame 1 0 100) (Build_frame 1 1 100) [fr3])
    as [Hset Hev]; [reflexivity..|].
  split; [exact Hset|]. apply Hev. lia.
Defined.

End FrameMore.

(* ===================================================================== *)
(** * Further properties of the namespace operations *)
(* ===================================================================== *)
Module FilesysMore.
Import Filesys FilesysFacts.

#[local] Arguments inode_open : simpl never.
#[local] Arguments inode_close : simpl never.
#[local] Arguments free_map_allocate : simpl never.
#[local] Arguments inode_create : simpl never.
#[local] Arguments dir_create : simpl never.
#[local] Arguments dir_add : simpl never.
#[local] Arguments dir_remove : simpl never.
#[local] Arguments seqZ : simpl never.

(** Two opens commute. *)
Lemma inode_open_comm t d (s : fs) :
  (inode_open t (inode_open d s).2).2 = (inode_open d (inode_open t s).2).2.
Proof.
  destruct (decide (t = d)) as [->|Hne]; [done|].
  unfold inode_open.
  destruct (inodes s !! d) as [i|] eqn:Hd; destruct (inodes s !! t) as [j|] eqn:Ht;
    simpl; rewrite !lookup_insert_ne by done; rewrite ?Hd, ?Ht; simpl;
    unfold set_inodes; simpl; f_equal; by apply insert_insert_ne.
Qed.

(** Closing the parent after the leaf was opened leaves the leaf open. *)
Lemma close_parent_after_open t d (s : fs) :
  inodes_wf s →
  inode_close (Some d) (inode_open t (inode_open d s).2).2 = Some (inode_open t s).2.
Proof.
  intros Hwf. rewrite inode_open_comm. apply inode_close_open. by apply inode_open_wf.
Qed.

Section Namespace.
Variable NAME_MAX : nat.
Variable dir_path_and_name : string → option (option string * string).
Variable dir_resolve : fs → string → option Z.

Local Abbreviation resolve_parent := (resolve_parent dir_resolve).
Local Abbreviation filesys_create := (filesys_create NAME_MAX dir_path_and_name dir_resolve).
Local Abbreviation filesys_open := (filesys_open dir_path_and_name dir_resolve).
Local Abbreviation filesys_remove := (filesys_remove dir_path_and_name dir_resolve).

(** X11: a name that cannot be split, or whose parent path cannot be
    traversed, makes create and remove return failure and open return the
    null handle, and none of them changes the state. *)
Theorem namespace_fails_early name sz isdir (s : fs) :
  dir_path_and_name name = None
  ∨ (∃ p leaf, dir_path_and_name name = Some (Some p, leaf) ∧ dir_resolve s p = None) →
  filesys_create name sz isdir s = Some (false, s)
  ∧ filesys_open name s = Some (None, s)
  ∧ filesys_remove (Some name) s = Some (false, s).
Proof.
  unfold Filesys.filesys_create, Filesys.filesys_open, Filesys.filesys_remove.
  intros [->|(p & leaf & -> & Hres)]; [done|].
  simpl. unfold dir_parse. by rewrite Hres.
Qed.

(** X12: opening a leaf that is absent from the resolved directory returns
    the null handle; the parent reference is released, so the state is as
    before the call. *)
Theorem open_absent_leaf name path leaf (s : fs) d s1 :
  dir_path_and_name name = Some (path, leaf) →
  leaf ≠ ""%string →
  resolve_parent path s = Some (Some d, s1) →
  inodes_wf s →
  lookup_entry leaf (dir_entries s d) = None →
  filesys_open name s = Some (None, s).
Proof.
  intros Hsplit Hleaf Hres Hwf Habsent.
  unfold Filesys.filesys_open. rewrite Hsplit, Hres. simpl.
  rewrite decide_False by done.
  apply resolve_parent_open in Hres as ->.
  pose proof (inode_open_fields d s) as (_ & Hdisk & _).
  rewrite (dir_entries_disk _ _ _ Hdisk), Habsent. simpl.
  by rewrite inode_close_open.
Qed.

(** X13: opening a leaf that is present returns a handle on its inode and
    changes nothing but that inode's open count, which grows by one: the
    reference on the parent directory taken during resolution is released
    again. *)
Theorem open_present_leaf name path leaf (s : fs) d s1 t :
  dir_path_and_name name = Some (path, leaf) →
  leaf ≠ ""%string →
  resolve_parent path s = Some (Some d, s1) →
  inodes_wf s →
  lookup_entry leaf (dir_entries s d) = Some t →
  filesys_open name s = Some (Some t, (inode_open t s).2)
  ∧ open_count (inode_open t s).2 t = open_count s t + 1
  ∧ ∀ x, x ≠ t → inodes (inode_open t s).2 !! x = inodes s !! x.
Proof.
  intros Hsplit Hleaf Hres Hwf Hpresent. split_and!.
  - unfold Filesys.filesys_open. rewrite Hsplit, Hres. simpl.
    rewrite decide_False by done.
    apply resolve_parent_open in Hres as ->.
    pose proof (inode_open_fields d s) as (_ & Hdisk & _).
    rewrite (dir_entries_disk _ _ _ Hdisk), Hpresent.
    pose proof (inode_open_fields t (inode_open d s).2) as (Hp & _).
    pose proof (close_parent_after_open t d s Hwf) as Hclose.
    destruct (inode_open t (inode_open d s).2) as [q s2]. simpl in Hp, Hclose. subst q.
    simpl. rewrite Hclose. done.
  - apply inode_open_count.
  - intros x Hx. unfold inode_open.
    destruct (inodes s !! t); simpl; by rewrite lookup_insert_ne.
Qed.

(** X17: removing a name that denotes the caller's working directory
    fails; the looked-up inode and the parent directory are both closed
    again, so the state is as before the call. *)
Theorem remove_cwd_fails name path leaf (s : fs) d s1 c :
  dir_path_and_name name = Some (path, leaf) →
  leaf ≠ ""%string →
  resolve_parent path s = Some (Some d, s1) →
  inodes_wf s →
  cwd s = Some c →
  lookup_entry leaf (dir_entries s d) = Some c →
  filesys_remove (Some name) s = Some (false, s).
Proof.
  intros Hsplit Hleaf Hres Hwf Hcwd Hpresent.
  unfold Filesys.filesys_remove. rewrite Hsplit, Hres. simpl.
  rewrite decide_False by done.
  apply resolve_parent_open in Hres as ->.
  pose proof (inode_open_fields d s) as (_ & Hdisk & _ & _ & Hcwd1).
  rewrite (dir_entries_disk _ _ _ Hdisk), Hpresent.
  pose proof (inode_open_fields c (inode_open d s).2) as (Hp & _ & _ & _ & Hcwd2).
  pose proof (close_parent_after_open c d s Hwf) as Hclose.
  destruct (inode_open c (inode_open d s).2) as [q s2].
  simpl in Hp, Hclose, Hcwd2. subst q.
  simpl. rewrite Hcwd2, Hcwd1, Hcwd. simpl.
  rewrite decide_True by done. rewrite Hclose. simpl.
  by rewrite inode_close_open.
Qed.

(** ** Creating a fresh leaf *)

Lemma free_map_allocate_fresh cnt (s : fs) st s' :
  free_map_allocate cnt s = (Some st, s') → 0 < cnt → st ∉ free_map s.
Proof.
  unfold free_map_allocate.
  destruct (list_find _ _) as [[k st']|] eqn:Hfind; [|done].
  intros [= <- <-] Hcnt.
  apply list_find_Some in Hfind as (_ & Hfree & _).
  unfold sectors_free in Hfree. rewrite forallb_forall in Hfree.
  specialize (Hfree st'). rewrite bool_decide_eq_true in Hfree. apply Hfree.
  apply list_elem_of_In, elem_of_seqZ. lia.
Qed.

Lemma inode_create_false sector len isdir (s s' : fs) :
  inode_create sector len isdir s = (false, s') → s' = s.
Proof.
  unfold inode_create, free_map_allocate.
  destruct (list_find _ _) as [[k st]|]; [done|]. by intros [= <-].
Qed.

Lemma inode_close_restores d (s s3 : fs) :
  inodes_wf s → inodes s3 = inodes (inode_open d s).2 →
  ∃ s', inode_close (Some d) s3 = Some s'
        ∧ disk s' = disk s3 ∧ free_map s' = free_map s3 ∧ inodes s' = inodes s.
Proof.
  intros Hwf Hi. unfold inode_close. rewrite Hi. unfold inode_open.
  destruct (inodes s !! d) as [i|] eqn:Hd; simpl; rewrite lookup_insert_eq; simpl.
  - specialize (Hwf _ _ Hd). rewrite decide_False by lia.
    eexists. split_and!; [done..|]. simpl. rewrite insert_insert_eq.
    replace (open_cnt i + 1 - 1) with (open_cnt i) by lia.
    apply insert_id. by destruct i.
  - eexists. split_and!; [done..|]. simpl. by rewrite delete_insert_id.
Qed.

(** The path of [filesys_create] through a fresh leaf whose name the
    directory accepts: the leaf is linked whatever the initialisation of the
    object returned, and that result is the result of the call. *)
Lemma create_fresh_links name path leaf sz (isdir : bool) (s : fs) d s1 sector s2 ok s3 :
  dir_path_and_name name = Some (path, leaf) →
  resolve_parent path s = Some (Some d, s1) →
  inodes_wf s →
  d ∈ free_map s →
  is_Some (disk s !! d) →
  lookup_entry leaf (dir_entries s d) = None →
  leaf ≠ ""%string →
  (String.length leaf ≤ NAME_MAX)%nat →
  free_map_allocate 1 s1 = (Some sector, s2) →
  (if isdir then dir_create sector 0 s2 else inode_create sector sz false s2) = (ok, s3) →
  ∃ s', filesys_create name sz isdir s = Some (ok, s')
        ∧ dir_entries s' d = dir_entries s d ++ [(leaf, sector)]
        ∧ inodes s' = inodes s
        ∧ (sector ∉ free_map s) ∧ sector ∈ free_map s'
        ∧ disk s' !! sector = disk s3 !! sector
        ∧ free_map s' = free_map s3
        ∧ cwd s' = cwd s3.
Proof.
  intros Hsplit Hres Hwf Hdused [di Hdi] Hfresh Hleaf Hlen Halloc Hinit.
  unfold Filesys.filesys_create. rewrite Hsplit, Hres. simpl.
  apply resolve_parent_open in Hres as ->.
  pose proof (inode_open_fields d s) as (_ & Hdisk1 & Hfm1 & _).
  rewrite (dir_entries_disk _ _ _ Hdisk1), Hfresh. simpl. rewrite Halloc, Hinit.
  pose proof (free_map_allocate_fresh _ _ _ _ Halloc ltac:(lia)) as Hnew.
  rewrite Hfm1 in Hnew.
  assert (sector ≠ d) as Hsd by (intros ->; done).
  apply (free_map_allocate_fields dir_resolve) in Halloc as (Hdisk2 & Hi2 & _ & _ & Hused).
  assert (inodes s3 = inodes s2 ∧ free_map s2 ⊆ free_map s3
          ∧ disk s3 !! d = Some di) as (Hi3 & Hsub & Hd3).
  { assert (∃ len, inode_create sector len isdir s2 = (ok, s3)) as [len Hcreate].
    { destruct isdir; unfold dir_create in Hinit; eauto. }
    destruct ok.
    - apply (inode_create_fields dir_resolve) in Hcreate as (Hi & _ & Hfm & Hobj).
      destruct (Hobj eq_refl) as [st Hdisk3]. split_and!; [done..|].
      rewrite Hdisk3, lookup_insert_ne by done. by rewrite Hdisk2, Hdisk1.
    - apply inode_create_false in Hcreate as ->. split_and!; [done..|].
      by rewrite Hdisk2, Hdisk1. }
  assert (dir_entries s3 d = dir_entries s d) as Hentries.
  { unfold dir_entries. by rewrite Hd3, Hdi. }
  unfold dir_add. simpl.
  rewrite decide_False by (intros [?|?]; [done|lia]).
  rewrite Hentries, Hfresh, Hd3. simpl.
  destruct (inode_close_restores d s
              (set_entries d (dir_entries s d ++ [(leaf, sector)]) s3) Hwf)
    as (s' & Hclose & Hdisk' & Hfm' & Hi').
  { simpl. by rewrite Hi3, Hi2. }
  simpl in Hclose. rewrite Hclose. simpl. rewrite andb_true_r.
  exists s'. split_and!; [done| |done|done| | |done|].
  - rewrite (dir_entries_disk _ _ _ Hdisk'). apply dir_entries_set. eauto.
  - rewrite Hfm'. simpl. apply Hsub, Hused; [done|lia].
  - rewrite Hdisk'. simpl. by rewrite lookup_alter_ne.
  - by apply inode_close_fields in Hclose as (_ & -> & _).
Qed.

(** X14: create succeeds on a fresh leaf with an acceptable name when a
    sector is free and the object can be initialised in it. Afterwards the
    parent's entries are the old ones followed by the new leaf, which names
    the newly allocated sector holding the new object; no open count has
    changed. *)
Theorem create_fresh_succeeds name path leaf sz (isdir : bool) (s : fs)
    d s1 sector s2 s3 :
  dir_path_and_name name = Some (path, leaf) →
  resolve_parent path s = Some (Some d, s1) →
  inodes_wf s →
  d ∈ free_map s →
  is_Some (disk s !! d) →
  lookup_entry leaf (dir_entries s d) = None →
  leaf ≠ ""%string →
  (String.length leaf ≤ NAME_MAX)%nat →
  free_map_allocate 1 s1 = (Some sector, s2) →
  (if isdir then dir_create sector 0 s2 else inode_create sector sz false s2) = (true, s3) →
  ∃ s', filesys_create name sz isdir s = Some (true, s')
        ∧ dir_entries s' d = dir_entries s d ++ [(leaf, sector)]
        ∧ lookup_entry leaf (dir_entries s' d) = Some sector
        ∧ inodes s' = inodes s
        ∧ (sector ∉ free_map s) ∧ sector ∈ free_map s'
        ∧ ∃ st, disk s' !! sector
                = Some (Build_inode_disk isdir (if isdir then 0 else sz) st []).
Proof.
  intros Hsplit Hres Hwf Hdused Hd Hfresh Hleaf Hlen Halloc Hinit.
  destruct (create_fresh_links _ _ _ _ _ _ _ _ _ _ _ _ Hsplit Hres Hwf Hdused Hd Hfresh
              Hleaf Hlen Halloc Hinit)
    as (s' & Hcreate & Hentries & Hinodes & Hnew & Hused & Hobj & _).
  exists s'. split_and!; try done.
  - rewrite Hentries. by apply lookup_entry_snoc.
  - rewrite Hobj.
    destruct isdir; unfold dir_create in Hinit;
      apply (inode_create_fields dir_resolve) in Hinit as (_ & _ & _ & Hdisk);
      destruct (Hdisk eq_refl) as [st ->]; exists st; by rewrite lookup_insert_eq.
Qed.

(** X15: [filesys_create] links the leaf even when the initialisation of
    the object has failed ([success &= dir_add (...)] calls [dir_add]
    whatever [success] is). The call then returns failure, yet the name is
    in the parent directory and names the allocated sector, in which no
    object was written; the sector stays in use. *)
Theorem create_failed_init_links name path leaf sz (isdir : bool) (s : fs)
    d s1 sector s2 s3 :
  dir_path_and_name name = Some (path, leaf) →
  resolve_parent path s = Some (Some d, s1) →
  inodes_wf s →
  d ∈ free_map s →
  is_Some (disk s !! d) →
  lookup_entry leaf (dir_entries s d) = None →
  leaf ≠ ""%string →
  (String.length leaf ≤ NAME_MAX)%nat →
  free_map_allocate 1 s1 = (Some sector, s2) →
  (if isdir then dir_create sector 0 s2 else inode_create sector sz false s2) = (false, s3) →
  ∃ s', filesys_create name sz isdir s = Some (false, s')
        ∧ lookup_entry leaf (dir_entries s' d) = Some sector
        ∧ sector ∈ free_map s'
        ∧ disk s' !! sector = disk s !! sector.
Proof.
  intros Hsplit Hres Hwf Hdused Hd Hfresh Hleaf Hlen Halloc Hinit.
  destruct (create_fresh_links _ _ _ _ _ _ _ _ _ _ _ _ Hsplit Hres Hwf Hdused Hd Hfresh
              Hleaf Hlen Halloc Hinit)
    as (s' & Hcreate & Hentries & Hinodes & Hnew & Hused & Hobj & _).
  exists s'. split_and!; try done.
  - rewrite Hentries. by apply lookup_entry_snoc.
  - rewrite Hobj.
    assert (s3 = s2) as ->.
    { destruct isdir; unfold dir_create in Hinit; by apply inode_create_false in Hinit. }
    apply (free_map_allocate_fields dir_resolve) in Halloc as (-> & _).
    apply resolve_parent_open in Hres as ->.
    by pose proof (inode_open_fields d s) as (_ & -> & _).
Qed.

(** ** Removing a regular file *)

(** [dir_remove] on an entry whose inode is open. *)
Lemma dir_remove_open_leaf d leaf t i (s : fs) :
  inodes s !! t = Some i → open_cnt i ≠ 0 →
  lookup_entry leaf (dir_entries s d) = Some t →
  dir_remove (Some d) leaf s
  = Some (true,
          Build_fs (disk (set_entries d (filter (λ e, e.1 ≠ leaf) (dir_entries s d)) s))
                   (<[t := Build_inode (open_cnt i) true]> (inodes s))
                   (free_map s) (disk_size s) (cwd s)).
Proof.
  intros Ht Hcnt Hpresent. unfold dir_remove. simpl. rewrite Hpresent.
  unfold inode_open. rewrite Ht. simpl.
  unfold inode_remove. simpl. rewrite lookup_insert_eq. simpl.
  unfold inode_close. simpl. rewrite lookup_insert_eq. simpl.
  rewrite decide_False by lia. simpl. do 2 f_equal.
  unfold set_inodes, set_entries, set_disk, dir_entries. simpl.
  rewrite !insert_insert_eq. do 2 f_equal. f_equal. lia.
Qed.

(** Closing the parent when another inode has changed since it was opened. *)
Lemma close_parent_modified d t x (u s6 : fs) :
  inodes_wf u → t ≠ d →
  inodes s6 = <[t := x]> (inodes (inode_open d u).2) →
  inode_close (Some d) s6 = Some (set_inodes (<[t := x]> (inodes u)) s6).
Proof.
  intros Hwf Htd Hi. unfold inode_close. rewrite Hi.
  rewrite lookup_insert_ne by done. unfold inode_open.
  destruct (inodes u !! d) as [id|] eqn:Hd; simpl; rewrite lookup_insert_eq; simpl.
  - specialize (Hwf _ _ Hd). rewrite decide_False by lia. do 2 f_equal.
    rewrite (insert_insert_ne _ d t) by done. rewrite insert_insert_eq.
    f_equal. replace (open_cnt id + 1 - 1) with (open_cnt id) by lia.
    apply insert_id. by destruct id.
  - do 2 f_equal. rewrite delete_insert_ne by done. by rewrite delete_insert_id.
Qed.

(** X16: removing a regular file that is neither the working directory nor
    the parent itself succeeds and erases the name from the parent. If
    nobody has the file open, its inode sector and its data sectors are
    released at once and the open inodes are as before; if it is open
    elsewhere, its inode is marked removed, keeps its open count, and no
    sector is released. *)
Theorem remove_file_unlinks name path leaf (s : fs) d s1 t c dt :
  dir_path_and_name name = Some (path, leaf) →
  leaf ≠ ""%string →
  resolve_parent path s = Some (Some d, s1) →
  inodes_wf s →
  cwd s = Some c →
  lookup_entry leaf (dir_entries s d) = Some t →
  t ≠ c → t ≠ d →
  disk s !! t = Some dt → is_dir dt = false →
  ∃ s', filesys_remove (Some name) s = Some (true, s')
        ∧ dir_entries s' d = filter (λ e, e.1 ≠ leaf) (dir_entries s d)
        ∧ match inodes s !! t with
          | None =>
              inodes s' = inodes s
              ∧ free_map s'
                = (free_map s ∖ list_to_set (seqZ t 1))
                  ∖ list_to_set (seqZ (inode_start dt) (bytes_to_sectors (inode_length dt)))
          | Some i =>
              inodes s' = <[t := Build_inode (open_cnt i) true]> (inodes s)
              ∧ free_map s' = free_map s
          end.
Proof.
  intros Hsplit Hleaf Hres Hwf Hcwd Hpresent Htc Htd Hdt Hfile.
  unfold Filesys.filesys_remove. rewrite Hsplit, Hres. simpl.
  rewrite decide_False by done.
  apply resolve_parent_open in Hres as ->.
  pose proof (inode_open_fields d s) as (_ & Hdisk1 & Hfm1 & _ & Hcwd1).
  rewrite (dir_entries_disk _ _ _ Hdisk1), Hpresent.
  assert (is_Some (disk s !! d)) as [dd Hdd].
  { unfold dir_entries in Hpresent. destruct (disk s !! d); [eauto|done]. }
  pose proof (inode_open_fields t (inode_open d s).2) as (Hp & Hdisk2 & Hfm2 & _ & Hcwd2).
  pose proof (inode_open_comm t d s) as Hcomm.
  pose proof (inode_open_self t (inode_open d s).2) as [i2 Hi2].
  assert (open_cnt i2 = open_count s t + 1
          ∧ inodes (inode_open t s).2 = <[t := i2]> (inodes s)) as [Hcnt2 Hu].
  { rewrite Hcomm in Hi2. revert Hi2. unfold inode_open at 1.
    destruct (inodes (inode_open t s).2 !! d); simpl;
      rewrite lookup_insert_ne by done; unfold inode_open, open_count;
      destruct (inodes s !! t); simpl; rewrite lookup_insert_eq; by intros [= <-]. }
  assert (0 ≤ open_count s t) as Hnonneg.
  { unfold open_count. destruct (inodes s !! t) as [it|] eqn:Ht; [|done].
    specialize (Hwf _ _ Ht). lia. }
  destruct (inode_open t (inode_open d s).2) as [q s2]. simpl in *. subst q.
  rewrite Hcwd2, Hcwd1, Hcwd. simpl.
  rewrite decide_False by (intros [= ?]; done).
  unfold inode_is_dir. simpl. rewrite Hi2. simpl.
  rewrite Hdisk2, Hdisk1, Hdt, Hfile.
  rewrite (dir_remove_open_leaf d leaf t i2 s2 Hi2 ltac:(lia)).
  2:{ by rewrite (dir_entries_disk s s2 d) by by rewrite Hdisk2. }
  simpl.
  match goal with
  | |- context [inode_close (Some d) ?s6] =>
      pose proof (close_parent_modified d t (Build_inode (open_cnt i2) true)
                    (inode_open t s).2 s6 (inode_open_wf _ _ Hwf) Htd) as Hclose
  end.
  simpl in Hclose. rewrite Hclose by by rewrite <- Hcomm. clear Hclose.
  simpl. unfold inode_close. simpl. rewrite lookup_insert_eq. simpl.
  assert (dir_entries s2 d = dir_entries s d) as Hentries
    by (apply dir_entries_disk; by rewrite Hdisk2).
  unfold open_count in Hcnt2.
  destruct (inodes s !! t) as [it|] eqn:Ht.
  - specialize (Hwf _ _ Ht). rewrite decide_False by lia. simpl.
    eexists. split; [reflexivity|]. simpl. split_and!.
    + match goal with
      | |- dir_entries ?s' d = _ =>
          rewrite (dir_entries_disk
                     (set_entries d (filter (λ e, e.1 ≠ leaf) (dir_entries s2 d)) s2)
                     s' d eq_refl)
      end.
      rewrite dir_entries_set by (rewrite Hdisk2, Hdisk1; eauto). by rewrite Hentries.
    + rewrite Hu, !insert_insert_eq. do 2 f_equal. lia.
    + by rewrite Hfm2, Hfm1.
  - rewrite decide_True by lia. simpl.
    assert (disk s2 !! t = Some dt) as Hdt2 by by rewrite Hdisk2, Hdisk1.
    rewrite lookup_alter_ne by done. rewrite Hdt2. simpl.
    eexists. split; [reflexivity|]. simpl. split_and!.
    + match goal with
      | |- dir_entries ?s' d = _ =>
          rewrite (dir_entries_disk
                     (set_entries d (filter (λ e, e.1 ≠ leaf) (dir_entries s2 d)) s2)
                     s' d eq_refl)
      end.
      rewrite dir_entries_set by (rewrite Hdisk2, Hdisk1; eauto). by rewrite Hentries.
    + rewrite Hu, insert_insert_eq, delete_insert_id by done. done.
    + by rewrite Hfm2, Hfm1.
Qed.

(** ** Create followed by remove *)

Lemma free_map_allocate_exact cnt (s : fs) st s' :
  free_map_allocate cnt s = (Some st, s') →
  free_map s' = free_map s ∪ list_to_set (seqZ st cnt)
  ∧ cwd s' = cwd s
  ∧ ∀ x, x ∈ seqZ st cnt → x ∉ free_map s.
Proof.
  unfold free_map_allocate.
  destruct (list_find _ _) as [[k st']|] eqn:Hfind; [|done].
  intros [= <- <-]. split_and!; [done..|].
  apply list_find_Some in Hfind as (_ & Hfree & _).
  unfold sectors_free in Hfree. rewrite forallb_forall in Hfree.
  intros x Hx%list_elem_of_In. specialize (Hfree x Hx).
  by rewrite bool_decide_eq_true in Hfree.
Qed.

Lemma inode_create_exact sector len isdir (s s' : fs) :
  inode_create sector len isdir s = (true, s') →
  ∃ st, disk s' = <[sector := Build_inode_disk isdir len st []]> (disk s)
        ∧ free_map s' = free_map s ∪ list_to_set (seqZ st (bytes_to_sectors len))
        ∧ cwd s' = cwd s
        ∧ ∀ x, x ∈ seqZ st (bytes_to_sectors len) → x ∉ free_map s.
Proof.
  unfold inode_create.
  destruct (free_map_allocate _ s) as [[st|] s1] eqn:Halloc; [|done].
  pose proof (free_map_allocate_fields dir_resolve _ _ _ _ Halloc) as (Hdisk & _).
  apply free_map_allocate_exact in Halloc as (Hfm & Hcwd & Hfresh).
  intros [= <-]. exists st. simpl. by rewrite Hdisk.
Qed.

Lemma filter_absent leaf (es : list (string * Z)) :
  lookup_entry leaf es = None → filter (λ e, e.1 ≠ leaf) es = es.
Proof.
  induction es as [|[n t] es IH]; simpl; [done|].
  case_decide as Hn; [done|]. intros Habsent.
  rewrite filter_cons_True by done. by rewrite IH.
Qed.

(** X18: creating a regular file and then removing it, while nobody has it
    open, undoes the creation: both calls succeed, and afterwards the
    parent's entries, the open inodes and the free map are those from before
    the create. *)
Theorem create_then_remove name path leaf sz (s : fs) d s1 sector s2 s3 c :
  dir_path_and_name name = Some (path, leaf) →
  resolve_parent path s = Some (Some d, s1) →
  inodes_wf s →
  d ∈ free_map s → is_Some (disk s !! d) →
  cwd s = Some c → c ∈ free_map s →
  lookup_entry leaf (dir_entries s d) = None →
  leaf ≠ ""%string →
  (String.length leaf ≤ NAME_MAX)%nat →
  free_map_allocate 1 s1 = (Some sector, s2) →
  inode_create sector sz false s2 = (true, s3) →
  inodes s !! sector = None →
  ∃ s', filesys_create name sz false s = Some (true, s')
        ∧ ∀ s1', resolve_parent path s' = Some (Some d, s1') →
            ∃ s'', filesys_remove (Some name) s' = Some (true, s'')
                   ∧ dir_entries s'' d = dir_entries s d
                   ∧ inodes s'' = inodes s
                   ∧ free_map s'' = free_map s.
Proof.
  intros Hsplit Hres Hwf Hdused Hd Hcwd Hcused Hfresh Hleaf Hlen Halloc Hinit Hclosed.
  destruct (create_fresh_links name path leaf sz false s d s1 sector s2 true s3
              Hsplit Hres Hwf Hdused Hd Hfresh Hleaf Hlen Halloc Hinit)
    as (s' & Hcreate & Hentries & Hinodes & Hnew & Hused & Hobj & Hfm & Hcwd').
  exists s'. split; [done|]. intros s1' Hres'.
  pose proof (resolve_parent_open _ _ _ _ _ Hres) as ->.
  pose proof (inode_open_fields d s) as (_ & _ & Hfm1 & _ & Hcwd1).
  destruct (free_map_allocate_exact _ _ _ _ Halloc) as (Hfm2 & Hcwd2 & Hfresh2).
  destruct (inode_create_exact _ _ _ _ _ Hinit) as (st & Hdisk3 & Hfm3 & Hcwd3 & Hfresh3).
  assert (disk s' !! sector = Some (Build_inode_disk false sz st [])) as Hfile.
  { by rewrite Hobj, Hdisk3, lookup_insert_eq. }
  destruct (remove_file_unlinks name path leaf s' d s1' sector c
              (Build_inode_disk false sz st []))
    as (s'' & Hremove & Hentries'' & Hrest); try done.
  - intros t j. rewrite Hinodes. apply Hwf.
  - by rewrite Hcwd', Hcwd3, Hcwd2, Hcwd1.
  - rewrite Hentries. by apply lookup_entry_snoc.
  - intros ->. done.
  - intros ->. done.
  - exists s''. rewrite Hinodes, Hclosed in Hrest. destruct Hrest as [Hi'' Hfm''].
    split_and!; [done| |done|].
    + rewrite Hentries'', Hentries, filter_app, (filter_absent _ _ Hfresh).
      rewrite filter_cons_False by (simpl; intros Hne; by apply Hne).
      by rewrite filter_nil, app_nil_r.
    + rewrite Hfm'', Hfm, Hfm3, Hfm2, Hfm1. cbn [inode_start inode_length].
      assert (∀ x, x ∈ seqZ sector 1 → x ∉ free_map s) as Ha
        by (intros x Hx; rewrite <- Hfm1; by apply Hfresh2).
      assert (∀ x, x ∈ seqZ st (bytes_to_sectors sz) → x ∉ free_map s) as Hb.
      { intros x Hx Hin. apply (Hfresh3 x Hx). rewrite Hfm2, Hfm1.
        by apply elem_of_union_l. }
      apply set_eq. intros x.
      rewrite !elem_of_difference, !elem_of_union, !elem_of_list_to_set.
      specialize (Ha x). specialize (Hb x). tauto.
Qed.

End Namespace.

Import FsSamples.

Lemma file_fs_wf : inodes_wf file_fs.
Proof.
  intros sector i. unfold file_fs. simpl. by intros [_ <-]%lookup_singleton_Some.
Qed.

Lemma sub_fs_wf : inodes_wf sub_fs.
Proof.
  intros sector i. unfold sub_fs. simpl. by intros [_ <-]%lookup_singleton_Some.
Qed.

Lemma namespace_fails_early_witness :
  filesys_create 14 path_and_name resolve_path "/nodir/x"%string 0 false root_fs
  = Some (false, root_fs)
  ∧ filesys_open path_and_name resolve_path "/nodir/x"%string root_fs = Some (None, root_fs)
  ∧ filesys_remove path_and_name resolve_path (Some "/nodir/x"%string) root_fs
    = Some (false, root_fs).
Proof.
  apply (namespace_fails_early 14 path_and_name resolve_path "/nodir/x"%string 0 false root_fs).
  right. exists "/nodir"%string, "x"%string. split; reflexivity.
Defined.

Lemma open_absent_leaf_witness :
  filesys_open path_and_name resolve_path "nosuch"%string root_fs = Some (None, root_fs).
Proof.
  eapply (open_absent_leaf path_and_name resolve_path "nosuch"%string None
            "nosuch"%string root_fs 1);
    [reflexivity|done|reflexivity|exact root_fs_wf|reflexivity].
Defined.

Lemma open_present_leaf_witness :
  filesys_open path_and_name resolve_path "f"%string file_fs
  = Some (Some 2, (inode_open 2 file_fs).2)
  ∧ open_count (inode_open 2 file_fs).2 2 = 1.
Proof.
  destruct (open_present_leaf path_and_name resolve_path "f"%string None "f"%string
              file_fs 1 (inode_open 1 file_fs).2 2
              eq_refl ltac:(done) eq_refl file_fs_wf eq_refl)
    as (Hopen & Hcount & _).
  split; [exact Hopen|]. rewrite Hcount. reflexivity.
Defined.

Lemma create_fresh_succeeds_witness :
  ∃ s', filesys_create 14 path_and_name resolve_path "/f"%string 100 false root_fs
        = Some (true, s')
        ∧ dir_entries s' 1 = [("f"%string, 2)]
        ∧ inodes s' = inodes root_fs.
Proof.
  destruct (create_fresh_succeeds 14 path_and_name resolve_path "/f"%string
              (Some "/"%string) "f"%string 100 false root_fs 1 (inode_open 1 root_fs).2 2
              (free_map_allocate 1 (inode_open 1 root_fs).2).2
              (inode_create 2 100 false (free_map_allocate 1 (inode_open 1 root_fs).2).2).2
              eq_refl eq_refl root_fs_wf)
    as (s' & Hcreate & Hentries & _ & Hinodes & _);
    [by apply elem_of_union_r, elem_of_singleton|by eexists|reflexivity|done
    |simpl; lia|reflexivity|reflexivity|].
  exists s'. split_and!; done.
Defined.

Lemma create_failed_init_links_witness :
  ∃ s', filesys_create 14 path_and_name resolve_path "/big"%string 32768 false root_fs
        = Some (false, s')
        ∧ lookup_entry "big"%string (dir_entries s' 1) = Some 2
        ∧ disk s' !! 2 = None.
Proof.
  destruct (create_failed_init_links 14 path_and_name resolve_path "/big"%string
              (Some "/"%string) "big"%string 32768 false root_fs 1 (inode_open 1 root_fs).2 2
              (free_map_allocate 1 (inode_open 1 root_fs).2).2
              (inode_create 2 32768 false (free_map_allocate 1 (inode_open 1 root_fs).2).2).2
              eq_refl eq_refl root_fs_wf)
    as (s' & Hcreate & Hlinked & _ & Hobj);
    [by apply elem_of_union_r, elem_of_singleton|by eexists|reflexivity|done
    |simpl; lia|reflexivity|vm_compute; reflexivity|].
  exists s'. split_and!; [done..|]. rewrite Hobj. reflexivity.
Defined.

Lemma remove_file_unlinks_witness :
  ∃ s', filesys_remove path_and_name resolve_path (Some "f"%string) file_fs
        = Some (true, s')
        ∧ dir_entries s' 1 = []
        ∧ inodes s' = inodes file_fs
        ∧ elements (free_map s') = [1; 0].
Proof.
  destruct (remove_file_unlinks path_and_name resolve_path "f"%string None "f"%string
              file_fs 1 (inode_open 1 file_fs).2 2 1 (Build_inode_disk false 100 3 [])
              eq_refl ltac:(done) eq_refl file_fs_wf eq_refl eq_refl
              ltac:(done) ltac:(done) eq_refl eq_refl)
    as (s' & Hremove & Hentries & Hinodes & Hfm).
  exists s'. split_and!; [done..|]. rewrite Hfm. reflexivity.
Defined.

Lemma remove_cwd_fails_witness :
  filesys_remove path_and_name resolve_path (Some "/a"%string) sub_fs
  = Some (false, sub_fs).
Proof.
  eapply (remove_cwd_fails path_and_name resolve_path "/a"%string (Some "/"%string)
            "a"%string sub_fs 1 _ 2);
    [reflexivity|done|reflexivity|exact sub_fs_wf|reflexivity|reflexivity].
Defined.

Lemma create_then_remove_witness :
  ∃ s' s'',
    filesys_create 14 path_and_name resolve_path "/f"%string 100 false root_fs
    = Some (true, s')
    ∧ filesys_remove path_and_name resolve_path (Some "/f"%string) s' = Some (true, s'')
    ∧ dir_entries s'' 1 = []
    ∧ inodes s'' = inodes root_fs
    ∧ free_map s'' = free_map root_fs.
Proof.
  destruct (create_then_remove 14 path_and_name resolve_path "/f"%string
              (Some "/"%string) "f"%string 100 root_fs 1 (inode_open 1 root_fs).2 2
              (free_map_allocate 1 (inode_open 1 root_fs).2).2
              (inode_create 2 100 false (free_map_allocate 1 (inode_open 1 root_fs).2).2).2 1
              eq_refl eq_refl root_fs_wf)
    as (s' & Hcreate & Hremove);
    [by apply elem_of_union_r, elem_of_singleton|by eexists|reflexivity
    |by apply elem_of_union_r, elem_of_singleton|reflexivity|done
    |simpl; lia|reflexivity|reflexivity|reflexivity|].
  pose proof Hcreate as Hrun. vm_compute in Hrun. injection Hrun as Hs'.
  destruct (Hremove (inode_open 1 s').2) as (s'' & Hrm & Hentries & Hinodes & Hfm).
  { rewrite <- Hs'. reflexivity. }
  exists s', s''. split_and!; done.
Defined.

End FilesysMore.
